(** * BlockDesk: the on-chain ticket registry

    A shallow embedding of the Solidity contract [BlockDesk]
    (ticket life cycle, comments and the two-tier role table) and the
    properties of its state machine and authorization model.

    Solidity values are modelled as follows.
    - [uint256] and [address] are binary naturals [N]; the compiler
      (pragma ^0.8.19) checks arithmetic, so [x++] and [x - 1] revert with
      [Panic(0x11)] when they leave the range [0 .. 2^256 - 1].
    - a [mapping] is a finite map [gmap] read with the type's zero value as
      the default, as the EVM does for slots never written.
    - [require(c, msg)] reverts with [Error(msg)]; the function bodies run in
      a state-and-failure monad that keeps the world reached at the point of
      the revert, and [call] adds the ledger's roll-back on top of it.
    - events go to a log next to the storage. *)

From stdpp Require Import gmap strings list fin_maps.

Local Open Scope string_scope.
Local Open Scope list_scope.
Local Open Scope N_scope.

(** ** Data model *)

Inductive TicketStatus := Open | InProgress | Resolved | Closed.
Inductive UserRole := User | Manager.

#[global] Instance TicketStatus_eq_dec : EqDecision TicketStatus.
Proof. solve_decision. Defined.
#[global] Instance UserRole_eq_dec : EqDecision UserRole.
Proof. solve_decision. Defined.

Definition UINT256_MAX : N := 2 ^ 256 - 1.

(** [address(0)], the value of an assignee that is absent. *)
Definition address0 : N := 0.

Module Ticket.
Record t := mk {
  id : N;
  creator : N;
  assignedTo : N;
  title : string;
  description : string;
  attachmentHash : string;
  status : TicketStatus;
  createdAt : N;
  updatedAt : N
}.

(** The all-zero record read from a mapping slot that was never written. *)
Definition zero : t := mk 0 0 0 "" "" "" Open 0 0.

Definition set_assignedTo (a : N) (x : t) : t :=
  mk (id x) (creator x) a (title x) (description x) (attachmentHash x)
     (status x) (createdAt x) (updatedAt x).
Definition set_status (s : TicketStatus) (x : t) : t :=
  mk (id x) (creator x) (assignedTo x) (title x) (description x)
     (attachmentHash x) s (createdAt x) (updatedAt x).
Definition set_updatedAt (ts : N) (x : t) : t :=
  mk (id x) (creator x) (assignedTo x) (title x) (description x)
     (attachmentHash x) (status x) (createdAt x) ts.
End Ticket.

Module Comment.
Record t := mk {
  id : N;
  ticketId : N;
  author : N;
  content : string;
  createdAt : N
}.
End Comment.

Inductive Event :=
| TicketCreated (ticketId creator : N) (title : string)
| StatusUpdated (ticketId : N) (status : TicketStatus) (updater : N)
| TicketAssigned (ticketId assignee assigner : N)
| TicketReopened (ticketId reopener : N)
| CommentAdded (ticketId commentId author : N).

(** The contract's storage variables. *)
Record Storage := mkStorage {
  tickets : gmap N Ticket.t;
  userRoles : gmap N UserRole;
  ticketComments : gmap N (list Comment.t);
  nextTicketId : N;
  nextCommentId : N
}.

(** Storage together with the events emitted so far. *)
Record World := mkWorld {
  storage : Storage;
  logs : list Event
}.

(** What a call sees of its transaction. *)
Record Env := mkEnv {
  msg_sender : N;
  block_timestamp : N
}.

(** *** Reading the mappings *)

Definition ticket_at (s : Storage) (ticketId : N) : Ticket.t :=
  default Ticket.zero (tickets s !! ticketId).
Definition role_of (s : Storage) (user : N) : UserRole :=
  default User (userRoles s !! user).
Definition comments_at (s : Storage) (ticketId : N) : list Comment.t :=
  default [] (ticketComments s !! ticketId).

(** *** Writing the storage *)

Definition set_ticket (ticketId : N) (x : Ticket.t) (s : Storage) : Storage :=
  mkStorage (<[ticketId := x]> (tickets s)) (userRoles s) (ticketComments s)
            (nextTicketId s) (nextCommentId s).
Definition update_ticket (ticketId : N) (f : Ticket.t → Ticket.t) (s : Storage)
  : Storage :=
  set_ticket ticketId (f (ticket_at s ticketId)) s.
Definition set_role (user : N) (r : UserRole) (s : Storage) : Storage :=
  mkStorage (tickets s) (<[user := r]> (userRoles s)) (ticketComments s)
            (nextTicketId s) (nextCommentId s).
Definition push_comment (ticketId : N) (c : Comment.t) (s : Storage) : Storage :=
  mkStorage (tickets s) (userRoles s)
            (<[ticketId := comments_at s ticketId ++ [c]]> (ticketComments s))
            (nextTicketId s) (nextCommentId s).
Definition set_nextTicketId (n : N) (s : Storage) : Storage :=
  mkStorage (tickets s) (userRoles s) (ticketComments s) n (nextCommentId s).
Definition set_nextCommentId (n : N) (s : Storage) : Storage :=
  mkStorage (tickets s) (userRoles s) (ticketComments s) (nextTicketId s) n.

(** ** Execution monad *)

Inductive Failure :=
| Revert (reason : string)
| Panic (code : N).

Inductive Result (A : Type) :=
| Ok (a : A)
| Err (e : Failure).
Arguments Ok {A} a.
Arguments Err {A} e.

Definition is_ok {A} (r : Result A) : bool :=
  match r with Ok _ => true | Err _ => false end.

(** A computation returns its result and the world it stopped in; after a
    failure that is the world at the point of the revert. *)
Definition Exec (A : Type) : Type := World → Result A * World.

#[global] Instance Exec_ret : MRet Exec := λ A a w, (Ok a, w).
#[global] Instance Exec_bind : MBind Exec := λ A B f m w,
  match m w with
  | (Ok a, w') => f a w'
  | (Err e, w') => (Err e, w')
  end.

Definition revert {A} (reason : string) : Exec A := λ w, (Err (Revert reason), w).
Definition panic {A} (code : N) : Exec A := λ w, (Err (Panic code), w).

Definition require (c : bool) (reason : string) : Exec unit :=
  if c then mret tt else revert reason.

Definition sload : Exec Storage := λ w, (Ok (storage w), w).
Definition sstore (f : Storage → Storage) : Exec unit :=
  λ w, (Ok tt, mkWorld (f (storage w)) (logs w)).
Definition emit (e : Event) : Exec unit :=
  λ w, (Ok tt, mkWorld (storage w) (logs w ++ [e])).

(** Checked [uint256] arithmetic: overflow and underflow are [Panic(0x11)]. *)
Definition checked_add (a b : N) : Exec N :=
  if decide (a + b ≤ UINT256_MAX) then mret (a + b) else panic 17.
Definition checked_sub (a b : N) : Exec N :=
  if decide (b ≤ a) then mret (a - b) else panic 17.

(** The ledger applies a call in full or not at all. *)
Definition call {A} (m : Exec A) (w : World) : Result A * World :=
  match m w with
  | (Ok a, w') => (Ok a, w')
  | (Err e, _) => (Err e, w)
  end.

(** ** The contract *)

Definition initial_storage : Storage := mkStorage ∅ ∅ ∅ 1 1.

Definition constructor (env : Env) : Exec unit :=
  sstore (set_role (msg_sender env) Manager).

Definition onlyManager {A} (env : Env) (body : Exec A) : Exec A :=
  s ← sload;
  require (bool_decide (role_of s (msg_sender env) = Manager))
          "Not authorized: Manager only";;
  body.

Definition createTicket (env : Env) (title description attachmentHash : string)
  : Exec N :=
  s ← sload;
  let ticketId := nextTicketId s in
  next ← checked_add ticketId 1;
  sstore (set_nextTicketId next);;
  sstore (set_ticket ticketId
            (Ticket.mk ticketId (msg_sender env) address0 title description
                       attachmentHash Open (block_timestamp env)
                       (block_timestamp env)));;
  emit (TicketCreated ticketId (msg_sender env) title);;
  mret ticketId.

Definition updateStatus (env : Env) (ticketId : N) (status : TicketStatus)
  : Exec unit :=
  s ← sload;
  require (bool_decide (Ticket.id (ticket_at s ticketId) ≠ 0))
          "Ticket does not exist";;
  require (bool_decide (Ticket.creator (ticket_at s ticketId) = msg_sender env)
           || bool_decide (Ticket.assignedTo (ticket_at s ticketId) = msg_sender env)
           || bool_decide (role_of s (msg_sender env) = Manager))
          "Not authorized";;
  sstore (update_ticket ticketId (Ticket.set_status status));;
  sstore (update_ticket ticketId (Ticket.set_updatedAt (block_timestamp env)));;
  emit (StatusUpdated ticketId status (msg_sender env)).

Definition assignTicket (env : Env) (ticketId assignee : N) : Exec unit :=
  onlyManager env (
    s ← sload;
    require (bool_decide (Ticket.id (ticket_at s ticketId) ≠ 0))
            "Ticket does not exist";;
    require (bool_decide (role_of s assignee = Manager))
            "Can only assign to Managers";;
    sstore (update_ticket ticketId (Ticket.set_assignedTo assignee));;
    sstore (update_ticket ticketId (Ticket.set_status InProgress));;
    sstore (update_ticket ticketId (Ticket.set_updatedAt (block_timestamp env)));;
    emit (TicketAssigned ticketId assignee (msg_sender env))).

Definition resolveTicket (env : Env) (ticketId : N) : Exec unit :=
  onlyManager env (
    s ← sload;
    require (bool_decide (Ticket.id (ticket_at s ticketId) ≠ 0))
            "Ticket does not exist";;
    sstore (update_ticket ticketId (Ticket.set_status Resolved));;
    sstore (update_ticket ticketId (Ticket.set_updatedAt (block_timestamp env)));;
    emit (StatusUpdated ticketId Resolved (msg_sender env))).

Definition closeTicket (env : Env) (ticketId : N) : Exec unit :=
  onlyManager env (
    s ← sload;
    require (bool_decide (Ticket.id (ticket_at s ticketId) ≠ 0))
            "Ticket does not exist";;
    sstore (update_ticket ticketId (Ticket.set_status Closed));;
    sstore (update_ticket ticketId (Ticket.set_updatedAt (block_timestamp env)));;
    emit (StatusUpdated ticketId Closed (msg_sender env))).

Definition reopenTicket (env : Env) (ticketId : N) : Exec unit :=
  onlyManager env (
    s ← sload;
    require (bool_decide (Ticket.id (ticket_at s ticketId) ≠ 0))
            "Ticket does not exist";;
    require (bool_decide (Ticket.status (ticket_at s ticketId) = Closed)
             || bool_decide (Ticket.status (ticket_at s ticketId) = Resolved))
            "Only closed or resolved tickets can be reopened";;
    sstore (update_ticket ticketId (Ticket.set_status Open));;
    sstore (update_ticket ticketId (Ticket.set_assignedTo address0));;
    sstore (update_ticket ticketId (Ticket.set_updatedAt (block_timestamp env)));;
    emit (TicketReopened ticketId (msg_sender env))).

Definition addComment (env : Env) (ticketId : N) (content : string) : Exec unit :=
  s ← sload;
  require (bool_decide (Ticket.id (ticket_at s ticketId) ≠ 0))
          "Ticket does not exist";;
  require (bool_decide (0 < String.length content)%nat)
          "Comment cannot be empty";;
  let commentId := nextCommentId s in
  next ← checked_add commentId 1;
  sstore (set_nextCommentId next);;
  let newComment :=
    Comment.mk commentId ticketId (msg_sender env) content (block_timestamp env) in
  sstore (push_comment ticketId newComment);;
  emit (CommentAdded ticketId commentId (msg_sender env)).

Definition getTicketComments (ticketId : N) : Exec (list Comment.t) :=
  s ← sload;
  require (bool_decide (Ticket.id (ticket_at s ticketId) ≠ 0))
          "Ticket does not exist";;
  mret (comments_at s ticketId).

Definition setUserRole (env : Env) (user : N) (role : UserRole) : Exec unit :=
  onlyManager env (sstore (set_role user role)).

Definition getTicket (ticketId : N) : Exec Ticket.t :=
  s ← sload;
  require (bool_decide (Ticket.id (ticket_at s ticketId) ≠ 0))
          "Ticket does not exist";;
  mret (ticket_at s ticketId).

(** [new Ticket[](count)]: a memory array of more than [2^64 - 1] elements
    is refused with [Panic(0x41)]. *)
Definition MAX_ARRAY_LENGTH : N := 2 ^ 64 - 1.

Definition new_array (count : N) : Exec unit :=
  if decide (count ≤ MAX_ARRAY_LENGTH) then mret tt else panic 65.

(** The allocation, then the loop
    [for (i = 1; i <= count; i++) allTickets[i - 1] = tickets[i]]. *)
Definition getAllTickets : Exec (list Ticket.t) :=
  s ← sload;
  count ← checked_sub (nextTicketId s) 1;
  new_array count;;
  mret (map (λ i, ticket_at s (N.of_nat i)) (seq 1 (N.to_nat count))).

(** ** Failure kinds

    The revert reasons of the contract, named as the design does: a missing
    ticket is [NotFound], a caller without the required role or relationship
    is [Unauthorized], and a rejected argument (empty comment, assignee that
    is no Manager, reopening a ticket that is not terminal) is
    [InvalidArgument].  An arithmetic panic has no kind. *)

Inductive ErrorKind := NotFound | Unauthorized | InvalidArgument.

Definition error_kind (e : Failure) : option ErrorKind :=
  match e with
  | Revert reason =>
      if decide (reason = "Ticket does not exist") then Some NotFound
      else if decide (reason = "Not authorized: Manager only") then Some Unauthorized
      else if decide (reason = "Not authorized") then Some Unauthorized
      else if decide (reason = "Can only assign to Managers") then Some InvalidArgument
      else if decide (reason = "Only closed or resolved tickets can be reopened")
           then Some InvalidArgument
      else if decide (reason = "Comment cannot be empty") then Some InvalidArgument
      else None
  | Panic _ => None
  end.

Definition fails_with {A} (r : Result A) (k : ErrorKind) : Prop :=
  ∃ e, r = Err e ∧ error_kind e = Some k.

(** ** Transactions and reachable states *)

Inductive Call :=
| CreateTicket (title description attachmentHash : string)
| UpdateStatus (ticketId : N) (status : TicketStatus)
| AssignTicket (ticketId assignee : N)
| ResolveTicket (ticketId : N)
| CloseTicket (ticketId : N)
| ReopenTicket (ticketId : N)
| AddComment (ticketId : N) (content : string)
| GetTicketComments (ticketId : N)
| SetUserRole (user : N) (role : UserRole)
| GetTicket (ticketId : N)
| GetAllTickets.

Inductive Value :=
| VUnit
| VUint (n : N)
| VTicket (x : Ticket.t)
| VTickets (l : list Ticket.t)
| VComments (l : list Comment.t).

Definition dispatch (env : Env) (c : Call) : Exec Value :=
  match c with
  | CreateTicket title description attachmentHash =>
      n ← createTicket env title description attachmentHash; mret (VUint n)
  | UpdateStatus ticketId status => updateStatus env ticketId status;; mret VUnit
  | AssignTicket ticketId assignee => assignTicket env ticketId assignee;; mret VUnit
  | ResolveTicket ticketId => resolveTicket env ticketId;; mret VUnit
  | CloseTicket ticketId => closeTicket env ticketId;; mret VUnit
  | ReopenTicket ticketId => reopenTicket env ticketId;; mret VUnit
  | AddComment ticketId content => addComment env ticketId content;; mret VUnit
  | GetTicketComments ticketId => l ← getTicketComments ticketId; mret (VComments l)
  | SetUserRole user role => setUserRole env user role;; mret VUnit
  | GetTicket ticketId => x ← getTicket ticketId; mret (VTicket x)
  | GetAllTickets => l ← getAllTickets; mret (VTickets l)
  end.

Record Tx := mkTx {
  tx_env : Env;
  tx_call : Call
}.

Definition step (w : World) (tx : Tx) : Result Value * World :=
  call (dispatch (tx_env tx) (tx_call tx)) w.

(** The world right after deployment by [creator]. *)
Definition deploy (creator : N) : World :=
  (constructor (mkEnv creator 0) (mkWorld initial_storage [])).2.

Fixpoint run (w : World) (txs : list Tx) : World :=
  match txs with
  | [] => w
  | tx :: rest => run (step w tx).2 rest
  end.

Definition ticket_exists (w : World) (ticketId : N) : Prop :=
  Ticket.id (ticket_at (storage w) ticketId) ≠ 0.

Definition is_manager (w : World) (user : N) : Prop :=
  role_of (storage w) user = Manager.

Definition has_manager (w : World) : Prop := ∃ user, is_manager w user.

#[global] Instance ticket_exists_dec w ticketId : Decision (ticket_exists w ticketId).
Proof. unfold ticket_exists. apply _. Defined.
#[global] Instance is_manager_dec w user : Decision (is_manager w user).
Proof. unfold is_manager. apply _. Defined.

(** The effect of each function on the storage once its guards have passed. *)

Definition created (env : Env) (title description attachmentHash : string)
  (s : Storage) : Storage :=
  set_ticket (nextTicketId s)
    (Ticket.mk (nextTicketId s) (msg_sender env) address0 title description
               attachmentHash Open (block_timestamp env) (block_timestamp env))
    (set_nextTicketId (nextTicketId s + 1) s).

Definition status_updated (env : Env) (ticketId : N) (status : TicketStatus)
  (s : Storage) : Storage :=
  update_ticket ticketId (Ticket.set_updatedAt (block_timestamp env))
    (update_ticket ticketId (Ticket.set_status status) s).

Definition assigned (env : Env) (ticketId assignee : N) (s : Storage) : Storage :=
  update_ticket ticketId (Ticket.set_updatedAt (block_timestamp env))
    (update_ticket ticketId (Ticket.set_status InProgress)
       (update_ticket ticketId (Ticket.set_assignedTo assignee) s)).

Definition reopened (env : Env) (ticketId : N) (s : Storage) : Storage :=
  update_ticket ticketId (Ticket.set_updatedAt (block_timestamp env))
    (update_ticket ticketId (Ticket.set_assignedTo address0)
       (update_ticket ticketId (Ticket.set_status Open) s)).

Definition commented (env : Env) (ticketId : N) (content : string) (s : Storage)
  : Storage :=
  push_comment ticketId
    (Comment.mk (nextCommentId s) ticketId (msg_sender env) content
                (block_timestamp env))
    (set_nextCommentId (nextCommentId s + 1) s).

(** ** Notions used by the properties *)

(** The ids returned by the successful [createTicket] calls of a trace, in
    the order of the calls. *)
Fixpoint created_ids (w : World) (txs : list Tx) : list N :=
  match txs with
  | [] => []
  | tx :: rest =>
      match tx_call tx, (step w tx).1 with
      | CreateTicket _ _ _, Ok (VUint n) => n :: created_ids (step w tx).2 rest
      | _, _ => created_ids (step w tx).2 rest
      end
  end.

(** The ids [1; 2; ...; k]. *)
Definition ids_upto (k : nat) : list N := map N.of_nat (seq 1 k).

(** At no point of the trace does the only Manager left resign: whenever a
    caller that is a Manager calls [setUserRole] on itself with [User], some
    other identity holds the Manager role at that point.  Calls that revert,
    and demotions of somebody else, are not constrained. *)
Fixpoint sole_manager_never_resigns (w : World) (txs : list Tx) : Prop :=
  match txs with
  | [] => True
  | tx :: rest =>
      (tx_call tx = SetUserRole (msg_sender (tx_env tx)) User →
       is_manager w (msg_sender (tx_env tx)) →
       ∃ other, other ≠ msg_sender (tx_env tx) ∧ is_manager w other)
      ∧ sole_manager_never_resigns (step w tx).2 rest
  end.

(** A comment id is in use when a stored comment carries it or a
    [CommentAdded] event of the log announced it. *)
Definition comment_id_used (w : World) (n : N) : Prop :=
  (∃ ticketId c, c ∈ comments_at (storage w) ticketId ∧ Comment.id c = n)
  ∨ (∃ ticketId author, CommentAdded ticketId n author ∈ logs w).

Definition comment_ids_below_counter (w : World) : Prop :=
  ∀ n, comment_id_used w n → n < nextCommentId (storage w).

(** *** The scenario of the design: a user files a ticket, a Manager assigns
    it to a second Manager, who resolves it; it is reopened and commented. *)

Definition addr_M : N := 1.
Definition addr_M2 : N := 2.
Definition addr_A : N := 10.

Definition scenario : list Tx :=
  [ mkTx (mkEnv addr_A 100) (CreateTicket "Printer jam" "QmDescription" "");
    mkTx (mkEnv addr_M 101) (SetUserRole addr_M2 Manager);
    mkTx (mkEnv addr_M 102) (AssignTicket 1 addr_M2);
    mkTx (mkEnv addr_M2 103) (ResolveTicket 1);
    mkTx (mkEnv addr_M 104) (ReopenTicket 1);
    mkTx (mkEnv addr_A 105) (AddComment 1 "still broken") ].

(** The world after the first [n] calls of the scenario. *)
Definition scenario_at (n : nat) : World := run (deploy addr_M) (take n scenario).

(** The ticket of the scenario filed, the second Manager appointed, and the
    ticket closed by the first Manager. *)
Definition closed_world : World :=
  run (scenario_at 2) [mkTx (mkEnv addr_M 103) (CloseTicket 1)].

(** ** Invariants of the reachable states *)

(** The ticket id counter is at least 1, and the record stored under an id
    carries that id when the id has been issued and is all-zero in its [id]
    field otherwise. *)
Definition tickets_wellformed (w : World) : Prop :=
  1 ≤ nextTicketId (storage w)
  ∧ ∀ ticketId,
      Ticket.id (ticket_at (storage w) ticketId)
      = if decide (1 ≤ ticketId < nextTicketId (storage w)) then ticketId else 0.

(** Every stored comment sits in the list of the ticket it names, that
    ticket exists, its content is not empty and its id has been issued;
    inside a list the ids increase, and no id occurs in two lists. *)
Definition comments_wellformed (w : World) : Prop :=
  1 ≤ nextCommentId (storage w)
  ∧ (∀ ticketId c,
       c ∈ comments_at (storage w) ticketId →
       Comment.ticketId c = ticketId
       ∧ Comment.content c ≠ ""
       ∧ 1 ≤ Comment.id c < nextCommentId (storage w)
       ∧ ticket_exists w ticketId)
  ∧ (∀ ticketId (i j : nat) c1 c2,
       (i < j)%nat →
       comments_at (storage w) ticketId !! i = Some c1 →
       comments_at (storage w) ticketId !! j = Some c2 →
       Comment.id c1 < Comment.id c2)
  ∧ (∀ t1 t2 c1 c2,
       c1 ∈ comments_at (storage w) t1 →
       c2 ∈ comments_at (storage w) t2 →
       Comment.id c1 = Comment.id c2 → t1 = t2).

(** The ticket ids and the comment ids announced in a log, in log order. *)
Definition logged_ticket_ids (l : list Event) : list N :=
  omap (λ e, match e with TicketCreated ticketId _ _ => Some ticketId | _ => None end) l.

Definition logged_comment_ids (l : list Event) : list N :=
  omap (λ e, match e with CommentAdded _ commentId _ => Some commentId | _ => None end) l.

(** The block timestamps of a trace never go back, starting from [now]. *)
Fixpoint timestamps_nondecreasing (now : N) (txs : list Tx) : Prop :=
  match txs with
  | [] => True
  | tx :: rest =>
      now ≤ block_timestamp (tx_env tx)
      ∧ timestamps_nondecreasing (block_timestamp (tx_env tx)) rest
  end.

(** The timestamp of the last call of a trace, [now] for the empty trace. *)
Fixpoint last_timestamp (now : N) (txs : list Tx) : N :=
  match txs with
  | [] => now
  | tx :: rest => last_timestamp (block_timestamp (tx_env tx)) rest
  end.

(** Every ticket was created no later than it was last updated, and updated
    no later than [now]. *)
Definition timestamps_ordered (now : N) (w : World) : Prop :=
  ∀ ticketId,
    ticket_exists w ticketId →
    Ticket.createdAt (ticket_at (storage w) ticketId)
    ≤ Ticket.updatedAt (ticket_at (storage w) ticketId)
    ∧ Ticket.updatedAt (ticket_at (storage w) ticketId) ≤ now.

(** The fields of a ticket that no function writes after creation. *)
Definition same_identity (x y : Ticket.t) : Prop :=
  Ticket.id y = Ticket.id x
  ∧ Ticket.creator y = Ticket.creator x
  ∧ Ticket.title y = Ticket.title x
  ∧ Ticket.description y = Ticket.description x
  ∧ Ticket.attachmentHash y = Ticket.attachmentHash x
  ∧ Ticket.createdAt y = Ticket.createdAt x.

(** No call of the trace asks for a demotion to [User]. *)
Definition never_demotes (txs : list Tx) : Prop :=
  Forall (λ tx, ∀ user, tx_call tx ≠ SetUserRole user User) txs.

(** Every existing ticket is unassigned or assigned to a Manager. *)
Definition assignees_are_managers (w : World) : Prop :=
  ∀ ticketId,
    ticket_exists w ticketId →
    Ticket.assignedTo (ticket_at (storage w) ticketId) = address0
    ∨ is_manager w (Ticket.assignedTo (ticket_at (storage w) ticketId)).

(** * The front end's pure helpers

    The pure parts of [src/lib/ipfs.ts] and of the ticket form.  A
    JavaScript string is the list of its UTF-16 code units, [length] is the
    number of code units, and a string is falsy exactly when it is empty. *)

(** The code units of an ASCII literal. *)
Definition js (s : string) : list N :=
  map Ascii.N_of_ascii (String.list_ascii_of_string s).

(** [const PINATA_GATEWAY = import.meta.env.VITE_PINATA_GATEWAY || "..."]:
    the variable may be undefined, and an empty value is falsy. *)
Definition PINATA_GATEWAY (VITE_PINATA_GATEWAY : option (list N)) : list N :=
  match VITE_PINATA_GATEWAY with
  | Some (c :: rest) => c :: rest
  | _ => js "https://gateway.pinata.cloud/ipfs/"
  end.

Definition getIPFSUrl (VITE_PINATA_GATEWAY : option (list N)) (cid : list N)
  : list N :=
  match cid with
  | [] => []
  | _ => PINATA_GATEWAY VITE_PINATA_GATEWAY ++ cid
  end.

(** The character class [[A-Za-z0-9]]. *)
Definition is_alnum (c : N) : bool :=
  ((65 <=? c) && (c <=? 90)) || ((97 <=? c) && (c <=? 122))
  || ((48 <=? c) && (c <=? 57)).

(** [/^[A-Za-z0-9]{46,}$/.test(str)] *)
Definition isIPFSHash (str : list N) : bool :=
  forallb is_alnum str && (46 <=? length str)%nat.

(** [b.toString(16)] for an element [b] of a [Uint8Array] (so [b < 256]). *)
Definition hex_digit (d : N) : N := if d <? 10 then 48 + d else 87 + d.

Definition toString16 (b : N) : list N :=
  if b <? 16 then [hex_digit b] else [hex_digit (b / 16); hex_digit (b mod 16)].

(** [s.padStart(2, '0')] *)
Definition padStart2 (s : list N) : list N := replicate (2 - length s) 48 ++ s.

(** [hashArray.map(b => b.toString(16).padStart(2, '0')).join('')] *)
Definition hashHex (hashArray : list N) : list N :=
  concat (map (λ b, padStart2 (toString16 b)) hashArray).

(** [`Qm${hashHex.substring(0, 44)}`], the content id that the demo
    [uploadToIPFS] derives from the SHA-256 digest [hashArray] of the file. *)
Definition mockCID (hashArray : list N) : list N :=
  js "Qm" ++ take 44 (hashHex hashArray).

(** The code units that [String.prototype.trim] strips: the WhiteSpace and
    LineTerminator productions of ECMAScript. *)
Definition is_js_whitespace (c : N) : bool :=
  bool_decide (c ∈ [9; 10; 11; 12; 13; 32; 160; 5760; 8232; 8233; 8239; 8287;
                    12288; 65279])
  || ((8192 <=? c) && (c <=? 8202)).

Fixpoint trimStart (s : list N) : list N :=
  match s with
  | [] => []
  | c :: rest => if is_js_whitespace c then trimStart rest else s
  end.

Definition trimEnd (s : list N) : list N := reverse (trimStart (reverse s)).

Definition trim (s : list N) : list N := trimEnd (trimStart s).

(** [!s] for a string [s]. *)
Definition falsy (s : list N) : bool :=
  match s with [] => true | _ => false end.

Module FormData.
Record t := mk {
  title : list N;
  description : list N;
  issueType : list N;
  equipmentType : list N;
  serialNumber : list N;
  remedialAction : list N;
  (** the size in bytes of the attached [File], when there is one *)
  attachment : option N
}.
End FormData.

Module FormErrors.
Record t := mk {
  title : option string;
  description : option string;
  issueType : option string;
  equipmentType : option string;
  serialNumber : option string;
  attachment : option string
}.

(** [Object.keys(newErrors).length === 0] *)
Definition no_keys (e : t) : bool :=
  match title e, description e, issueType e, equipmentType e, serialNumber e,
        attachment e with
  | None, None, None, None, None, None => true
  | _, _, _, _, _, _ => false
  end.
End FormErrors.

(** [validateForm] of the ticket form: the errors it hands to [setErrors]
    and the boolean it returns. *)
Definition validateForm (formData : FormData.t) : FormErrors.t * bool :=
  let title_error :=
    if falsy (trim (FormData.title formData)) then Some "Title is required"
    else if (length (FormData.title formData) <? 5)%nat
         then Some "Title must be at least 5 characters"
    else if (100 <? length (FormData.title formData))%nat
         then Some "Title must be less than 100 characters"
    else None in
  let description_error :=
    if falsy (trim (FormData.description formData))
    then Some "Description is required"
    else if (length (FormData.description formData) <? 10)%nat
         then Some "Description must be at least 10 characters"
    else None in
  let issueType_error :=
    if falsy (FormData.issueType formData)
    then Some "Issue type is required" else None in
  let equipmentType_error :=
    if falsy (FormData.equipmentType formData)
    then Some "Equipment type is required" else None in
  let serialNumber_error :=
    if falsy (trim (FormData.serialNumber formData))
    then Some "Serial number required" else None in
  let attachment_error :=
    match FormData.attachment formData with
    | Some size =>
        let maxSize := 10 * 1024 * 1024 in
        if maxSize <? size then Some "File must be smaller than 10MB" else None
    | None => None
    end in
  let newErrors :=
    FormErrors.mk title_error description_error issueType_error
                  equipmentType_error serialNumber_error attachment_error in
  (newErrors, FormErrors.no_keys newErrors).

(** A string with at least one code unit that [trim] keeps. *)
Definition has_content (s : list N) : Prop :=
  Exists (λ c, is_js_whitespace c = false) s.

(** ** Running the function bodies *)

Ltac exec_unfold :=
  unfold onlyManager, require, revert, new_array, panic, checked_add,
    checked_sub, sload, sstore, emit, mbind, mret, Exec_bind, Exec_ret.

Ltac exec_cases :=
  exec_unfold; simpl;
  repeat (first [ case_bool_decide | case_decide ]; simpl; exec_unfold; simpl);
  try reflexivity; try done.

Lemma onlyManager_run {A} env (body : Exec A) w :
  onlyManager env body w =
    if bool_decide (is_manager w (msg_sender env)) then body w
    else (Err (Revert "Not authorized: Manager only"), w).
Proof. unfold is_manager. exec_cases. Qed.

Lemma createTicket_run env title description attachmentHash w :
  createTicket env title description attachmentHash w =
    if decide (nextTicketId (storage w) + 1 ≤ UINT256_MAX) then
      (Ok (nextTicketId (storage w)),
       mkWorld (created env title description attachmentHash (storage w))
               (logs w ++ [TicketCreated (nextTicketId (storage w))
                                         (msg_sender env) title]))
    else (Err (Panic 17), w).
Proof. unfold createTicket. exec_cases. Qed.

Lemma updateStatus_run env ticketId status w :
  updateStatus env ticketId status w =
    if bool_decide (ticket_exists w ticketId) then
      if bool_decide (Ticket.creator (ticket_at (storage w) ticketId) = msg_sender env)
         || bool_decide (Ticket.assignedTo (ticket_at (storage w) ticketId) = msg_sender env)
         || bool_decide (is_manager w (msg_sender env))
      then (Ok tt, mkWorld (status_updated env ticketId status (storage w))
                           (logs w ++ [StatusUpdated ticketId status (msg_sender env)]))
      else (Err (Revert "Not authorized"), w)
    else (Err (Revert "Ticket does not exist"), w).
Proof. unfold updateStatus, ticket_exists, is_manager. exec_cases. Qed.

Lemma assignTicket_run env ticketId assignee w :
  assignTicket env ticketId assignee w =
    if bool_decide (is_manager w (msg_sender env)) then
      if bool_decide (ticket_exists w ticketId) then
        if bool_decide (is_manager w assignee)
        then (Ok tt, mkWorld (assigned env ticketId assignee (storage w))
                             (logs w ++ [TicketAssigned ticketId assignee
                                                        (msg_sender env)]))
        else (Err (Revert "Can only assign to Managers"), w)
      else (Err (Revert "Ticket does not exist"), w)
    else (Err (Revert "Not authorized: Manager only"), w).
Proof. unfold assignTicket, ticket_exists, is_manager. exec_cases. Qed.

Lemma resolveTicket_run env ticketId w :
  resolveTicket env ticketId w =
    if bool_decide (is_manager w (msg_sender env)) then
      if bool_decide (ticket_exists w ticketId)
      then (Ok tt, mkWorld (status_updated env ticketId Resolved (storage w))
                           (logs w ++ [StatusUpdated ticketId Resolved
                                                     (msg_sender env)]))
      else (Err (Revert "Ticket does not exist"), w)
    else (Err (Revert "Not authorized: Manager only"), w).
Proof. unfold resolveTicket, ticket_exists, is_manager. exec_cases. Qed.

Lemma closeTicket_run env ticketId w :
  closeTicket env ticketId w =
    if bool_decide (is_manager w (msg_sender env)) then
      if bool_decide (ticket_exists w ticketId)
      then (Ok tt, mkWorld (status_updated env ticketId Closed (storage w))
                           (logs w ++ [StatusUpdated ticketId Closed
                                                     (msg_sender env)]))
      else (Err (Revert "Ticket does not exist"), w)
    else (Err (Revert "Not authorized: Manager only"), w).
Proof. unfold closeTicket, ticket_exists, is_manager. exec_cases. Qed.

Lemma reopenTicket_run env ticketId w :
  reopenTicket env ticketId w =
    if bool_decide (is_manager w (msg_sender env)) then
      if bool_decide (ticket_exists w ticketId) then
        if bool_decide (Ticket.status (ticket_at (storage w) ticketId) = Closed)
           || bool_decide (Ticket.status (ticket_at (storage w) ticketId) = Resolved)
        then (Ok tt, mkWorld (reopened env ticketId (storage w))
                             (logs w ++ [TicketReopened ticketId (msg_sender env)]))
        else (Err (Revert "Only closed or resolved tickets can be reopened"), w)
      else (Err (Revert "Ticket does not exist"), w)
    else (Err (Revert "Not authorized: Manager only"), w).
Proof. unfold reopenTicket, ticket_exists, is_manager. exec_cases. Qed.

Lemma addComment_run env ticketId content w :
  addComment env ticketId content w =
    if bool_decide (ticket_exists w ticketId) then
      if bool_decide (0 < String.length content)%nat then
        if decide (nextCommentId (storage w) + 1 ≤ UINT256_MAX)
        then (Ok tt, mkWorld (commented env ticketId content (storage w))
                             (logs w ++ [CommentAdded ticketId
                                           (nextCommentId (storage w))
                                           (msg_sender env)]))
        else (Err (Panic 17), w)
      else (Err (Revert "Comment cannot be empty"), w)
    else (Err (Revert "Ticket does not exist"), w).
Proof. unfold addComment, ticket_exists. exec_cases. Qed.

Lemma setUserRole_run env user role w :
  setUserRole env user role w =
    if bool_decide (is_manager w (msg_sender env))
    then (Ok tt, mkWorld (set_role user role (storage w)) (logs w))
    else (Err (Revert "Not authorized: Manager only"), w).
Proof. unfold setUserRole, is_manager. exec_cases. Qed.

Lemma getTicket_run ticketId w :
  getTicket ticketId w =
    if bool_decide (ticket_exists w ticketId)
    then (Ok (ticket_at (storage w) ticketId), w)
    else (Err (Revert "Ticket does not exist"), w).
Proof. unfold getTicket, ticket_exists. exec_cases. Qed.

Lemma getTicketComments_run ticketId w :
  getTicketComments ticketId w =
    if bool_decide (ticket_exists w ticketId)
    then (Ok (comments_at (storage w) ticketId), w)
    else (Err (Revert "Ticket does not exist"), w).
Proof. unfold getTicketComments, ticket_exists. exec_cases. Qed.

Lemma getAllTickets_run w :
  getAllTickets w =
    if decide (1 ≤ nextTicketId (storage w)) then
      if decide (nextTicketId (storage w) - 1 ≤ MAX_ARRAY_LENGTH) then
        (Ok (map (λ i, ticket_at (storage w) (N.of_nat i))
                 (seq 1 (N.to_nat (nextTicketId (storage w) - 1)))), w)
      else (Err (Panic 65), w)
    else (Err (Panic 17), w).
Proof. unfold getAllTickets. exec_cases. Qed.

(** Case analysis of one call, through the equations above. *)
Ltac step_cases :=
  unfold step, call, dispatch, mbind, Exec_bind; simpl;
  rewrite ?createTicket_run, ?updateStatus_run, ?assignTicket_run,
    ?resolveTicket_run, ?closeTicket_run, ?reopenTicket_run, ?addComment_run,
    ?getTicketComments_run, ?setUserRole_run, ?getTicket_run, ?getAllTickets_run;
  repeat (first [ case_bool_decide | case_decide | case_match ]; simpl in * );
  simplify_eq; simpl; try done.

(** ** Reading the storage after a write *)

Lemma ticket_at_update_eq ticketId f s :
  ticket_at (update_ticket ticketId f s) ticketId = f (ticket_at s ticketId).
Proof. unfold ticket_at at 1, update_ticket; simpl. by rewrite lookup_insert_eq. Qed.

Lemma ticket_at_update_ne ticketId other f s :
  ticketId ≠ other →
  ticket_at (update_ticket ticketId f s) other = ticket_at s other.
Proof.
  intros Hne. unfold ticket_at, update_ticket; simpl.
  by rewrite lookup_insert_ne.
Qed.

Lemma role_of_set_role_eq user r s : role_of (set_role user r s) user = r.
Proof. unfold role_of; simpl. by rewrite lookup_insert_eq. Qed.

Lemma role_of_set_role_ne user other r s :
  user ≠ other → role_of (set_role user r s) other = role_of s other.
Proof. intros Hne. unfold role_of; simpl. by rewrite lookup_insert_ne. Qed.

Lemma comments_at_push_eq ticketId c s :
  comments_at (push_comment ticketId c s) ticketId = comments_at s ticketId ++ [c].
Proof. unfold comments_at at 1; simpl. by rewrite lookup_insert_eq. Qed.

Lemma comments_at_push_ne ticketId other c s :
  ticketId ≠ other →
  comments_at (push_comment ticketId c s) other = comments_at s other.
Proof. intros Hne. unfold comments_at; simpl. by rewrite lookup_insert_ne. Qed.

(** ** The ledger's view of a call *)

Lemma call_fst {A} (m : Exec A) w : (call m w).1 = (m w).1.
Proof. unfold call. by destruct (m w) as [[a|e] w']. Qed.

Lemma call_ok {A} (m : Exec A) w a w' : m w = (Ok a, w') → call m w = (Ok a, w').
Proof. unfold call. by intros ->. Qed.

Lemma call_err {A} (m : Exec A) w e w' : m w = (Err e, w') → call m w = (Err e, w).
Proof. unfold call. by intros ->. Qed.

Lemma fails_with_revert {A} reason k :
  error_kind (Revert reason) = Some k → fails_with (A:=A) (Err (Revert reason)) k.
Proof. intros Hk. by exists (Revert reason). Qed.

Lemma fails_with_not_ok {A} (r : Result A) k : fails_with r k → is_ok r = false.
Proof. by intros (e & -> & _). Qed.

Lemma bool_decide_or3 (P Q R : Prop) `{!Decision P, !Decision Q, !Decision R} :
  bool_decide P || bool_decide Q || bool_decide R = bool_decide (P ∨ Q ∨ R).
Proof. repeat case_bool_decide; simpl; try done; tauto. Qed.

Ltac guard_true := rewrite bool_decide_eq_true_2 by done.
Ltac guard_false := rewrite bool_decide_eq_false_2 by done.

(** ** Scenario *)

Example scenario_final_read :
  let s := storage (scenario_at 6) in
  Ticket.status (ticket_at s 1) = Open
  ∧ Ticket.assignedTo (ticket_at s 1) = address0
  ∧ comments_at s 1 = [Comment.mk 1 1 addr_A "still broken" 105].
Proof. by vm_compute. Qed.

(** ** reopenTicket *)

(** C1. For a ticket that exists and a caller that is a Manager,
    [reopenTicket] succeeds exactly when the ticket's status is [Closed] or
    [Resolved]; from any other status it fails with [InvalidArgument] (and
    leaves the world as it was); when it succeeds the ticket's status is
    [Open] and its assignee is [address(0)], that is, absent. *)
Theorem reopenTicket_only_from_terminal env ticketId w :
  ticket_exists w ticketId →
  is_manager w (msg_sender env) →
  let x := ticket_at (storage w) ticketId in
  let r := call (reopenTicket env ticketId) w in
  (is_ok r.1 = true ↔ Ticket.status x = Closed ∨ Ticket.status x = Resolved)
  ∧ (¬ (Ticket.status x = Closed ∨ Ticket.status x = Resolved) →
       fails_with r.1 InvalidArgument ∧ r.2 = w)
  ∧ (is_ok r.1 = true →
       Ticket.status (ticket_at (storage r.2) ticketId) = Open
       ∧ Ticket.assignedTo (ticket_at (storage r.2) ticketId) = address0).
Proof.
  intros Hex Hman x r. subst r. unfold call.
  rewrite reopenTicket_run. do 2 guard_true. fold x.
  destruct (Ticket.status x) eqn:Hst; simpl.
  - split_and!; [ split; [done | by intros [|]] | | done ].
    intros _. split; [ by apply fails_with_revert | done ].
  - split_and!; [ split; [done | by intros [|]] | | done ].
    intros _. split; [ by apply fails_with_revert | done ].
  - split_and!; [ split; [by right | done] | intros []; by right | ].
    intros _. unfold reopened.
    rewrite !ticket_at_update_eq. done.
  - split_and!; [ split; [by left | done] | intros []; by left | ].
    intros _. unfold reopened.
    rewrite !ticket_at_update_eq. done.
Qed.

Lemma reopenTicket_only_from_terminal_witness :
  ticket_exists (scenario_at 4) 1
  ∧ is_manager (scenario_at 4) addr_M
  ∧ Ticket.status (ticket_at (storage (scenario_at 4)) 1) = Resolved
  ∧ Ticket.status
      (ticket_at (storage (call (reopenTicket (mkEnv addr_M 104) 1)
                                (scenario_at 4)).2) 1) = Open
  ∧ Ticket.assignedTo
      (ticket_at (storage (call (reopenTicket (mkEnv addr_M 104) 1)
                                (scenario_at 4)).2) 1) = address0.
Proof.
  assert (Hex : ticket_exists (scenario_at 4) 1) by (by vm_compute).
  assert (Hman : is_manager (scenario_at 4) addr_M) by (by vm_compute).
  destruct (reopenTicket_only_from_terminal (mkEnv addr_M 104) 1 (scenario_at 4)
              Hex Hman) as (Hiff & _ & Hok).
  split_and!; [exact Hex | exact Hman | by vm_compute | |];
    apply Hok, Hiff; right; by vm_compute.
Defined.

(** ** assignTicket, resolveTicket, closeTicket *)

(** C2. For a ticket that exists, whatever its current status [status], and
    a caller that is a Manager, [resolveTicket] and [closeTicket] succeed,
    and whether [assignTicket] succeeds is decided by the assignee's role
    alone, never by the status; to an assignee that is a Manager it succeeds
    and leaves the ticket [InProgress] with that assignee, also from
    [Closed]. *)
Theorem transitions_ignore_status env ticketId assignee status w :
  ticket_exists w ticketId →
  is_manager w (msg_sender env) →
  Ticket.status (ticket_at (storage w) ticketId) = status →
  (∃ w', call (resolveTicket env ticketId) w = (Ok tt, w')
         ∧ Ticket.status (ticket_at (storage w') ticketId) = Resolved)
  ∧ (∃ w', call (closeTicket env ticketId) w = (Ok tt, w')
           ∧ Ticket.status (ticket_at (storage w') ticketId) = Closed)
  ∧ is_ok (call (assignTicket env ticketId assignee) w).1
    = bool_decide (is_manager w assignee)
  ∧ (is_manager w assignee →
     ∃ w', call (assignTicket env ticketId assignee) w = (Ok tt, w')
           ∧ Ticket.status (ticket_at (storage w') ticketId) = InProgress
           ∧ Ticket.assignedTo (ticket_at (storage w') ticketId) = assignee).
Proof.
  intros Hex Hman _. split_and!.
  - eexists. split.
    + apply call_ok. rewrite resolveTicket_run. by do 2 guard_true.
    + simpl. unfold status_updated. by rewrite !ticket_at_update_eq.
  - eexists. split.
    + apply call_ok. rewrite closeTicket_run. by do 2 guard_true.
    + simpl. unfold status_updated. by rewrite !ticket_at_update_eq.
  - rewrite call_fst, assignTicket_run. do 2 guard_true.
    by case_bool_decide.
  - intros Hwho. eexists. split.
    + apply call_ok. rewrite assignTicket_run. by do 3 guard_true.
    + simpl. unfold assigned. by rewrite !ticket_at_update_eq.
Qed.

Lemma transitions_ignore_status_witness :
  ticket_exists closed_world 1
  ∧ is_manager closed_world addr_M
  ∧ Ticket.status (ticket_at (storage closed_world) 1) = Closed
  ∧ ∃ w', call (assignTicket (mkEnv addr_M 110) 1 addr_M2) closed_world = (Ok tt, w')
          ∧ Ticket.status (ticket_at (storage w') 1) = InProgress
          ∧ Ticket.assignedTo (ticket_at (storage w') 1) = addr_M2.
Proof.
  assert (Hex : ticket_exists closed_world 1) by (by vm_compute).
  assert (Hman : is_manager closed_world addr_M) by (by vm_compute).
  assert (Hst : Ticket.status (ticket_at (storage closed_world) 1) = Closed)
    by (by vm_compute).
  destruct (transitions_ignore_status (mkEnv addr_M 110) 1 addr_M2 Closed
              closed_world Hex Hman Hst) as (_ & _ & _ & Hassign).
  split_and!; [exact Hex | exact Hman | exact Hst |].
  apply Hassign. by vm_compute.
Defined.

(** ** updateStatus *)

(** C4. For a ticket that exists and any target status, [updateStatus] fails
    with [Unauthorized] exactly when the caller is neither the ticket's
    creator, nor its current assignee, nor a Manager; a caller that is one of
    the three succeeds and the ticket's status becomes the target status. *)
Theorem updateStatus_authorization env ticketId status w :
  ticket_exists w ticketId →
  let x := ticket_at (storage w) ticketId in
  let r := call (updateStatus env ticketId status) w in
  (fails_with r.1 Unauthorized ↔
     Ticket.creator x ≠ msg_sender env
     ∧ Ticket.assignedTo x ≠ msg_sender env
     ∧ ¬ is_manager w (msg_sender env))
  ∧ (Ticket.creator x = msg_sender env
     ∨ Ticket.assignedTo x = msg_sender env
     ∨ is_manager w (msg_sender env) →
     r.1 = Ok tt
     ∧ Ticket.status (ticket_at (storage r.2) ticketId) = status).
Proof.
  intros Hex x r. subst r. unfold call.
  rewrite updateStatus_run. guard_true. fold x.
  rewrite bool_decide_or3. case_bool_decide as Hauth; simpl.
  - split.
    + split; [ intros Hf; by apply fails_with_not_ok in Hf | ].
      intros (? & ? & ?). by destruct Hauth as [|[|]].
    + intros _. split; [done|].
      unfold status_updated. by rewrite !ticket_at_update_eq.
  - split; [ | done ].
    split; [ | intros _; by apply fails_with_revert ].
    intros _. split_and!; intros ?; apply Hauth; auto.
Qed.

Lemma updateStatus_authorization_witness :
  ticket_exists (scenario_at 3) 1
  ∧ Ticket.creator (ticket_at (storage (scenario_at 3)) 1) = addr_A
  ∧ (call (updateStatus (mkEnv addr_A 120) 1 Closed) (scenario_at 3)).1 = Ok tt
  ∧ Ticket.status
      (ticket_at (storage (call (updateStatus (mkEnv addr_A 120) 1 Closed)
                                (scenario_at 3)).2) 1) = Closed.
Proof.
  assert (Hex : ticket_exists (scenario_at 3) 1) by (by vm_compute).
  destruct (updateStatus_authorization (mkEnv addr_A 120) 1 Closed (scenario_at 3)
              Hex) as (_ & Hok).
  split_and!; [exact Hex | by vm_compute | |]; apply Hok; left; by vm_compute.
Defined.

(** C5, as stated, at a caller that is no Manager.  In the world where user
    [addr_A] has filed ticket 1 and [addr_M2] has been made a Manager, the
    caller [addr_A] holds the role [User]: assigning to the Manager
    [addr_M2] does not succeed, and assigning to the non-Manager [addr_A]
    fails with [Unauthorized], not with [InvalidArgument].  The
    [onlyManager] modifier runs before the check of the assignee. *)
Lemma assignTicket_non_manager_caller :
  ticket_exists (scenario_at 2) 1
  ∧ is_manager (scenario_at 2) addr_M2
  ∧ is_ok (call (assignTicket (mkEnv addr_A 110) 1 addr_M2) (scenario_at 2)).1
    = false
  ∧ ¬ is_manager (scenario_at 2) addr_A
  ∧ (call (assignTicket (mkEnv addr_A 110) 1 addr_A) (scenario_at 2)).1
    = Err (Revert "Not authorized: Manager only")
  ∧ ¬ fails_with (call (assignTicket (mkEnv addr_A 110) 1 addr_A) (scenario_at 2)).1
        InvalidArgument.
Proof.
  split_and!; try by vm_compute.
  intros (e & He & Hk). vm_compute in He.
  injection He as <-. by vm_compute in Hk.
Qed.

(** C5, amended. For a ticket that exists: called by a Manager,
    [assignTicket] fails with [InvalidArgument] when the assignee does not
    hold the Manager role, and otherwise succeeds, setting the ticket's
    assignee to the given one and its status to [InProgress]; called by
    anyone else it fails with [Unauthorized], whoever the assignee is. *)
Theorem assignTicket_guards env ticketId assignee w :
  ticket_exists w ticketId →
  let r := call (assignTicket env ticketId assignee) w in
  (is_manager w (msg_sender env) → ¬ is_manager w assignee →
     fails_with r.1 InvalidArgument)
  ∧ (is_manager w (msg_sender env) → is_manager w assignee →
     r.1 = Ok tt
     ∧ Ticket.assignedTo (ticket_at (storage r.2) ticketId) = assignee
     ∧ Ticket.status (ticket_at (storage r.2) ticketId) = InProgress)
  ∧ (¬ is_manager w (msg_sender env) → fails_with r.1 Unauthorized).
Proof.
  intros Hex r. subst r. unfold call. rewrite assignTicket_run.
  split_and!.
  - intros Hman Hwho. do 2 guard_true. guard_false. simpl.
    by apply fails_with_revert.
  - intros Hman Hwho. do 3 guard_true. simpl.
    unfold assigned. by rewrite !ticket_at_update_eq.
  - intros Hman. guard_false. simpl. by apply fails_with_revert.
Qed.

Lemma assignTicket_guards_witness :
  ticket_exists (scenario_at 2) 1
  ∧ is_manager (scenario_at 2) addr_M
  ∧ is_manager (scenario_at 2) addr_M2
  ∧ (call (assignTicket (mkEnv addr_M 102) 1 addr_M2) (scenario_at 2)).1 = Ok tt
  ∧ Ticket.assignedTo
      (ticket_at (storage (call (assignTicket (mkEnv addr_M 102) 1 addr_M2)
                                (scenario_at 2)).2) 1) = addr_M2
  ∧ Ticket.status
      (ticket_at (storage (call (assignTicket (mkEnv addr_M 102) 1 addr_M2)
                                (scenario_at 2)).2) 1) = InProgress.
Proof.
  assert (Hex : ticket_exists (scenario_at 2) 1) by (by vm_compute).
  assert (Hman : is_manager (scenario_at 2) addr_M) by (by vm_compute).
  assert (Hwho : is_manager (scenario_at 2) addr_M2) by (by vm_compute).
  destruct (assignTicket_guards (mkEnv addr_M 102) 1 addr_M2 (scenario_at 2) Hex)
    as (_ & Hok & _).
  split_and!; [exact Hex | exact Hman | exact Hwho | ..]; by apply Hok.
Defined.

(** ** Failed calls *)

Lemma failed_body_world env c w e w' :
  dispatch env c w = (Err e, w') → w' = w.
Proof.
  destruct c; unfold dispatch, mbind, Exec_bind;
    rewrite ?createTicket_run, ?updateStatus_run, ?assignTicket_run,
      ?resolveTicket_run, ?closeTicket_run, ?reopenTicket_run, ?addComment_run,
      ?getTicketComments_run, ?setUserRole_run, ?getTicket_run,
      ?getAllTickets_run;
    intros Hrun;
    repeat (first [ case_bool_decide | case_decide | case_match ]; simpl in * );
    by simplify_eq.
Qed.

(** C8. Whatever the operation and the starting state, if the operation
    fails (be it [NotFound], [Unauthorized], [InvalidArgument] or a panic),
    the world in which its body stopped is the world in which it started:
    every guard runs before the first write and the first event, so nothing
    was changed even before the ledger rolls the call back; and the world
    the ledger keeps after the call is the one before it. *)
Theorem failed_call_changes_nothing env c w e w' :
  dispatch env c w = (Err e, w') →
  w' = w ∧ step w (mkTx env c) = (Err e, w).
Proof.
  intros Hrun. split; [ by eapply failed_body_world | ].
  unfold step; simpl. by eapply call_err.
Qed.

Lemma failed_call_changes_nothing_witness :
  dispatch (mkEnv addr_M 110) (ReopenTicket 1) (scenario_at 3)
  = (Err (Revert "Only closed or resolved tickets can be reopened"), scenario_at 3)
  ∧ step (scenario_at 3) (mkTx (mkEnv addr_M 110) (ReopenTicket 1))
    = (Err (Revert "Only closed or resolved tickets can be reopened"), scenario_at 3).
Proof.
  assert (Hrun : dispatch (mkEnv addr_M 110) (ReopenTicket 1) (scenario_at 3)
                 = (Err (Revert "Only closed or resolved tickets can be reopened"),
                    scenario_at 3)) by (by vm_compute).
  split; [ exact Hrun | ].
  exact (proj2 (failed_call_changes_nothing _ _ _ _ _ Hrun)).
Defined.

(** ** addComment *)

(** C9. A successful [addComment] leaves the table of tickets as it was, so
    no field of any ticket changes, in particular not the status and the
    [updatedAt] of the commented ticket; it leaves the role table and the
    ticket id counter as they were; it appends one comment to the comment
    list of the given ticket, leaves the comment lists of the other tickets
    alone, and increments the comment id counter. *)
Theorem addComment_frame env ticketId content w w' :
  call (addComment env ticketId content) w = (Ok tt, w') →
  tickets (storage w') = tickets (storage w)
  ∧ Ticket.status (ticket_at (storage w') ticketId)
    = Ticket.status (ticket_at (storage w) ticketId)
  ∧ Ticket.updatedAt (ticket_at (storage w') ticketId)
    = Ticket.updatedAt (ticket_at (storage w) ticketId)
  ∧ userRoles (storage w') = userRoles (storage w)
  ∧ nextTicketId (storage w') = nextTicketId (storage w)
  ∧ nextCommentId (storage w') = nextCommentId (storage w) + 1
  ∧ (∃ c, ticketComments (storage w')
          = <[ticketId := comments_at (storage w) ticketId ++ [c]]>
              (ticketComments (storage w)))
  ∧ (∀ other, other ≠ ticketId →
       comments_at (storage w') other = comments_at (storage w) other).
Proof.
  unfold call. rewrite addComment_run.
  repeat (first [ case_bool_decide | case_decide ]); try done.
  intros [= <-]. simpl. split_and!; try done.
  - by eexists.
  - intros other Hne. unfold commented. by rewrite comments_at_push_ne.
Qed.

Lemma addComment_frame_witness :
  (call (addComment (mkEnv addr_A 105) 1 "still broken") (scenario_at 5)).1 = Ok tt
  ∧ tickets (storage (call (addComment (mkEnv addr_A 105) 1 "still broken")
                           (scenario_at 5)).2)
    = tickets (storage (scenario_at 5))
  ∧ nextCommentId (storage (call (addComment (mkEnv addr_A 105) 1 "still broken")
                                 (scenario_at 5)).2)
    = nextCommentId (storage (scenario_at 5)) + 1.
Proof.
  assert (Hcall : call (addComment (mkEnv addr_A 105) 1 "still broken") (scenario_at 5)
                  = (Ok tt, (call (addComment (mkEnv addr_A 105) 1 "still broken")
                                  (scenario_at 5)).2)) by (by vm_compute).
  destruct (addComment_frame _ _ _ _ _ Hcall) as (Ht & _ & _ & _ & _ & Hc & _).
  split_and!; [ by vm_compute | exact Ht | exact Hc ].
Defined.

(** ** setUserRole *)

(** C10. [setUserRole(user, role)] called by a Manager succeeds and changes
    the role table at [user] only: every other identity keeps its role, and
    the ticket table, the comment lists, the two counters and the log stay as
    they were.  No ticket is revisited, so the role of an assignee is checked
    when a ticket is assigned and at no other time: after a ticket's
    assignee is demoted to [User], the ticket still names that assignee, who
    is no Manager, a new [assignTicket] to them by a Manager would be
    rejected, and they still pass the guard of [updateStatus]. *)
Theorem setUserRole_frame env user role w :
  is_manager w (msg_sender env) →
  ∃ w', call (setUserRole env user role) w = (Ok tt, w')
    ∧ role_of (storage w') user = role
    ∧ (∀ other, other ≠ user →
         role_of (storage w') other = role_of (storage w) other)
    ∧ tickets (storage w') = tickets (storage w)
    ∧ ticketComments (storage w') = ticketComments (storage w)
    ∧ nextTicketId (storage w') = nextTicketId (storage w)
    ∧ nextCommentId (storage w') = nextCommentId (storage w)
    ∧ logs w' = logs w
    ∧ (∀ ticketId,
         ticket_exists w ticketId →
         Ticket.assignedTo (ticket_at (storage w) ticketId) = user →
         role = User →
         Ticket.assignedTo (ticket_at (storage w') ticketId) = user
         ∧ ¬ is_manager w' user
         ∧ (∀ env', is_manager w' (msg_sender env') →
              fails_with (call (assignTicket env' ticketId user) w').1
                         InvalidArgument)
         ∧ (∀ env' status, msg_sender env' = user →
              (call (updateStatus env' ticketId status) w').1 = Ok tt)).
Proof.
  intros Hman. eexists. split.
  { apply call_ok. rewrite setUserRole_run. by guard_true. }
  simpl. split_and!; try done.
  - apply role_of_set_role_eq.
  - intros other Hne. by apply role_of_set_role_ne.
  - intros ticketId Hex Hass ->.
    set (w' := mkWorld (set_role user User (storage w)) (logs w)).
    assert (Hno : ¬ is_manager w' user).
    { unfold is_manager, w'; simpl. by rewrite role_of_set_role_eq. }
    assert (Hex' : ticket_exists w' ticketId) by exact Hex.
    split_and!; [ exact Hass | exact Hno | | ].
    + intros env' Hman'. rewrite call_fst, assignTicket_run.
      do 2 guard_true. guard_false. by apply fails_with_revert.
    + intros env' status Hsender. rewrite call_fst, updateStatus_run.
      guard_true. rewrite bool_decide_or3.
      rewrite bool_decide_eq_true_2; [ done | ].
      right; left. rewrite Hsender. exact Hass.
Qed.

Lemma setUserRole_frame_witness :
  is_manager (scenario_at 3) addr_M
  ∧ Ticket.assignedTo (ticket_at (storage (scenario_at 3)) 1) = addr_M2
  ∧ ¬ is_manager (call (setUserRole (mkEnv addr_M 110) addr_M2 User)
                       (scenario_at 3)).2 addr_M2
  ∧ (call (updateStatus (mkEnv addr_M2 111) 1 Closed)
          (call (setUserRole (mkEnv addr_M 110) addr_M2 User)
                (scenario_at 3)).2).1 = Ok tt.
Proof.
  assert (Hman : is_manager (scenario_at 3) addr_M) by (by vm_compute).
  destruct (setUserRole_frame (mkEnv addr_M 110) addr_M2 User (scenario_at 3) Hman)
    as (w' & Hcall & _ & _ & _ & _ & _ & _ & _ & Hdemoted).
  rewrite Hcall; cbn [snd].
  destruct (Hdemoted 1) as (_ & Hno & _ & Hupd); [ by vm_compute.. | ].
  split_and!; [ exact Hman | by vm_compute | exact Hno | ].
  by apply Hupd.
Defined.

(** ** The role table along a trace *)

Lemma deploy_storage creator :
  storage (deploy creator) = set_role creator Manager initial_storage.
Proof. reflexivity. Qed.

Lemma role_of_initial user : role_of initial_storage user = User.
Proof. unfold role_of; simpl. by rewrite lookup_empty. Qed.

Lemma deploy_creator_is_manager creator : is_manager (deploy creator) creator.
Proof. unfold is_manager. rewrite deploy_storage. apply role_of_set_role_eq. Qed.

(** Only [setUserRole] writes the role table. *)
Lemma step_userRoles w tx :
  userRoles (storage (step w tx).2) =
    match tx_call tx with
    | SetUserRole user role =>
        if bool_decide (is_manager w (msg_sender (tx_env tx)))
        then <[user := role]> (userRoles (storage w))
        else userRoles (storage w)
    | _ => userRoles (storage w)
    end.
Proof.
  destruct tx as [env c]. destruct c; by step_cases.
Qed.

Lemma step_keeps_manager w tx :
  has_manager w →
  (tx_call tx = SetUserRole (msg_sender (tx_env tx)) User →
   is_manager w (msg_sender (tx_env tx)) →
   ∃ other, other ≠ msg_sender (tx_env tx) ∧ is_manager w other) →
  has_manager (step w tx).2.
Proof.
  intros [m Hm] Hsafe. unfold has_manager, is_manager, role_of in *.
  setoid_rewrite step_userRoles.
  destruct tx as [env c]; simpl in *.
  destruct c as [| | | | | | | |user role| |]; try by exists m.
  case_bool_decide as Hcaller; [ | by exists m ].
  destruct role.
  - destruct (decide (user = msg_sender env)) as [->|Hne].
    + destruct (Hsafe eq_refl Hcaller) as (other & Hother & Hman).
      exists other. by rewrite lookup_insert_ne.
    + exists (msg_sender env). by rewrite lookup_insert_ne.
  - exists user. by rewrite lookup_insert_eq.
Qed.

Lemma run_keeps_manager w txs :
  has_manager w → sole_manager_never_resigns w txs → has_manager (run w txs).
Proof.
  revert w. induction txs as [|tx rest IH]; intros w Hm Hsafe; simpl; [done|].
  destruct Hsafe as [Hhere Hrest].
  apply IH; [ by apply step_keeps_manager | done ].
Qed.

(** A Manager after a call means a Manager before it: only a Manager can
    appoint one. *)
Lemma step_manager_before w tx : has_manager (step w tx).2 → has_manager w.
Proof.
  intros [m Hm]. unfold has_manager, is_manager, role_of in *.
  rewrite step_userRoles in Hm.
  destruct tx as [env c]; simpl in *.
  destruct c as [| | | | | | | |user role| |]; try by exists m.
  case_bool_decide as Hcaller; [ | by exists m ].
  by exists (msg_sender env).
Qed.

Lemma run_manager_before w txs : has_manager (run w txs) → has_manager w.
Proof.
  revert w. induction txs as [|tx rest IH]; intros w; simpl; [done|].
  intros Hm. apply IH in Hm. by apply step_manager_before in Hm.
Qed.

Lemma run_manager_never_resigned w txs :
  has_manager (run w txs) → sole_manager_never_resigns w txs.
Proof.
  revert w. induction txs as [|tx rest IH]; intros w; simpl; [done|].
  intros Hm. split; [ | by apply IH ].
  intros Hcall Hcaller.
  destruct (run_manager_before _ _ Hm) as [m Hrole].
  unfold is_manager, role_of in Hrole. rewrite step_userRoles, Hcall in Hrole.
  rewrite bool_decide_eq_true_2 in Hrole by done.
  destruct (decide (msg_sender (tx_env tx) = m)) as [<-|Hne].
  - by rewrite lookup_insert_eq in Hrole.
  - rewrite lookup_insert_ne in Hrole by done. by exists m.
Qed.

(** C3, as stated: the creator, sole Manager after deployment, demotes
    itself with [setUserRole]; the call succeeds and the state reached has no
    Manager at all. *)
Lemma sole_manager_can_resign :
  (step (deploy addr_M) (mkTx (mkEnv addr_M 1) (SetUserRole addr_M User))).1
  = Ok VUnit
  ∧ ¬ has_manager
        (run (deploy addr_M) [mkTx (mkEnv addr_M 1) (SetUserRole addr_M User)]).
Proof.
  split; [ by vm_compute | ].
  assert (Hs : storage (run (deploy addr_M)
                            [mkTx (mkEnv addr_M 1) (SetUserRole addr_M User)])
               = set_role addr_M User (set_role addr_M Manager initial_storage))
    by (by vm_compute).
  intros [user Hu]. unfold is_manager in Hu. rewrite Hs in Hu.
  destruct (decide (addr_M = user)) as [<-|Hne].
  - by rewrite role_of_set_role_eq in Hu.
  - rewrite !role_of_set_role_ne, role_of_initial in Hu by done. done.
Qed.

(** C3, amended. The creator holds the Manager role right after
    initialization.  A state reached from there by a sequence of operations
    has at least one Manager if and only if at no point of the sequence the
    only Manager left called [setUserRole] on itself with [User]: that call,
    which the contract accepts, is the one way to lose the last Manager.
    Any operation other than [setUserRole] leaves the role table as it
    was. *)
Theorem manager_lost_only_by_resignation creator txs :
  is_manager (deploy creator) creator
  ∧ (has_manager (run (deploy creator) txs)
     ↔ sole_manager_never_resigns (deploy creator) txs)
  ∧ (∀ w tx, (∀ user role, tx_call tx ≠ SetUserRole user role) →
             userRoles (storage (step w tx).2) = userRoles (storage w)).
Proof.
  split_and!.
  - apply deploy_creator_is_manager.
  - split; [ apply run_manager_never_resigned | ].
    apply run_keeps_manager. exists creator. apply deploy_creator_is_manager.
  - intros w tx Hother. rewrite step_userRoles.
    destruct (tx_call tx) as [| | | | | | | |user role| |]; try done.
    by destruct (Hother user role).
Qed.

Lemma manager_lost_only_by_resignation_witness :
  sole_manager_never_resigns (deploy addr_M)
    [ mkTx (mkEnv addr_M 1) (SetUserRole addr_M2 Manager);
      mkTx (mkEnv addr_M 2) (SetUserRole addr_M User) ]
  ∧ has_manager
      (run (deploy addr_M)
           [ mkTx (mkEnv addr_M 1) (SetUserRole addr_M2 Manager);
             mkTx (mkEnv addr_M 2) (SetUserRole addr_M User) ]).
Proof.
  assert (Hsafe : sole_manager_never_resigns (deploy addr_M)
            [ mkTx (mkEnv addr_M 1) (SetUserRole addr_M2 Manager);
              mkTx (mkEnv addr_M 2) (SetUserRole addr_M User) ]).
  { simpl. split_and!; [ by intros [=] | | done ].
    intros _ _. exists addr_M2. split; [ done | by vm_compute ]. }
  split; [ exact Hsafe | ].
  destruct (manager_lost_only_by_resignation addr_M
              [ mkTx (mkEnv addr_M 1) (SetUserRole addr_M2 Manager);
                mkTx (mkEnv addr_M 2) (SetUserRole addr_M User) ])
    as (_ & Hiff & _).
  by apply Hiff.
Defined.

(** ** Ticket ids along a trace *)

(** A successful [createTicket] returns the counter and increments it; no
    other call touches the counter. *)
Lemma step_nextTicketId w tx :
  match tx_call tx, (step w tx).1 with
  | CreateTicket _ _ _, Ok (VUint n) =>
      n = nextTicketId (storage w)
      ∧ nextTicketId (storage (step w tx).2) = n + 1
  | _, _ => nextTicketId (storage (step w tx).2) = nextTicketId (storage w)
  end.
Proof.
  destruct tx as [env c]. destruct c; by step_cases.
Qed.

Lemma created_ids_consecutive w txs :
  created_ids w txs
  = map (λ i, nextTicketId (storage w) + N.of_nat i)
        (seq 0 (length (created_ids w txs)))
  ∧ nextTicketId (storage (run w txs))
    = nextTicketId (storage w) + N.of_nat (length (created_ids w txs)).
Proof.
  revert w. induction txs as [|tx rest IH]; intros w; simpl.
  { split; [done | lia]. }
  pose proof (step_nextTicketId w tx) as Hstep.
  destruct (IH (step w tx).2) as [IHids IHnext].
  destruct (tx_call tx), ((step w tx).1) as [[]|];
    try (rewrite Hstep in IHids, IHnext; by split).
  destruct Hstep as [-> Hnext]. rewrite Hnext in IHids, IHnext.
  simpl. split.
  - f_equal; [ lia | ].
    rewrite IHids at 1. rewrite <- seq_shift, map_map.
    apply map_ext. intros i. lia.
  - rewrite IHnext. lia.
Qed.

Lemma nextTicketId_deploy creator : nextTicketId (storage (deploy creator)) = 1.
Proof. reflexivity. Qed.

(** The sentinel test [tickets[id].id != 0] of the contract holds exactly for
    the ids issued so far. *)
Lemma ticket_id_update ticketId f s other :
  (∀ x, Ticket.id (f x) = Ticket.id x) →
  Ticket.id (ticket_at (update_ticket ticketId f s) other)
  = Ticket.id (ticket_at s other).
Proof.
  intros Hf. destruct (decide (ticketId = other)) as [<-|Hne].
  - rewrite ticket_at_update_eq. apply Hf.
  - by rewrite ticket_at_update_ne.
Qed.

Lemma step_ticket_ids w tx :
  (nextTicketId (storage (step w tx).2) = nextTicketId (storage w)
   ∧ ∀ id, Ticket.id (ticket_at (storage (step w tx).2) id)
           = Ticket.id (ticket_at (storage w) id))
  ∨ (nextTicketId (storage (step w tx).2) = nextTicketId (storage w) + 1
     ∧ ∀ id, Ticket.id (ticket_at (storage (step w tx).2) id)
             = if decide (id = nextTicketId (storage w)) then id
               else Ticket.id (ticket_at (storage w) id)).
Proof.
  destruct tx as [env c]. destruct c.
  all: try (left; step_cases;
            (split; [done|]); intros id;
            unfold status_updated, assigned, reopened;
            repeat (rewrite ticket_id_update; [ | by intros [] ]); done).
  unfold step, call, dispatch, mbind, Exec_bind; simpl.
  rewrite createTicket_run. case_decide; simpl; [ right | by left ].
  split; [done|]. intros id. unfold created, ticket_at; simpl.
  case_decide as Hid.
  - subst id. by rewrite lookup_insert_eq.
  - by rewrite lookup_insert_ne.
Qed.

Lemma ticket_exists_reachable creator txs ticketId :
  ticket_exists (run (deploy creator) txs) ticketId
  ↔ 1 ≤ ticketId < nextTicketId (storage (run (deploy creator) txs)).
Proof.
  assert (∀ w,
    (1 ≤ nextTicketId (storage w)
     ∧ ∀ id, Ticket.id (ticket_at (storage w) id)
             = if decide (1 ≤ id < nextTicketId (storage w)) then id else 0) →
    1 ≤ nextTicketId (storage (run w txs))
    ∧ ∀ id, Ticket.id (ticket_at (storage (run w txs)) id)
            = if decide (1 ≤ id < nextTicketId (storage (run w txs)))
              then id else 0) as Hgen.
  { induction txs as [|tx rest IH]; intros w [Hpos Hinv]; simpl; [done|].
    apply IH.
    destruct (step_ticket_ids w tx) as [[-> Hids]|[-> Hids]].
    - split; [done|]. intros id. by rewrite Hids.
    - split; [lia|]. intros id. rewrite Hids, Hinv.
      repeat case_decide; try done; lia. }
  destruct (Hgen (deploy creator)) as [_ Hinv].
  { split; [ rewrite nextTicketId_deploy; lia | ].
    intros id. rewrite nextTicketId_deploy.
    unfold ticket_at; simpl. rewrite lookup_empty; simpl.
    case_decide; [lia | done]. }
  unfold ticket_exists. rewrite Hinv. case_decide; [ | done ].
  split; [ done | lia ].
Qed.

(** [createTicket] has no guard: it succeeds as long as the counter can be
    incremented, and the counter grows by at most one per call. *)
Lemma createTicket_succeeds env title description attachmentHash w :
  nextTicketId (storage w) < UINT256_MAX →
  ∃ w', call (createTicket env title description attachmentHash) w
        = (Ok (nextTicketId (storage w)), w').
Proof.
  intros Hroom. eexists. apply call_ok. rewrite createTicket_run.
  rewrite decide_True by lia. reflexivity.
Qed.

Lemma nextTicketId_bound creator txs :
  nextTicketId (storage (run (deploy creator) txs)) ≤ 1 + N.of_nat (length txs).
Proof.
  assert (∀ w, nextTicketId (storage (run w txs))
               ≤ nextTicketId (storage w) + N.of_nat (length txs)) as Hgen.
  { induction txs as [|tx rest IH]; intros w; simpl; [lia|].
    specialize (IH (step w tx).2).
    pose proof (step_nextTicketId w tx) as Hstep.
    destruct (tx_call tx), ((step w tx).1) as [[]|]; lia. }
  specialize (Hgen (deploy creator)). by rewrite nextTicketId_deploy in Hgen.
Qed.

(** C7. In the state reached from initialization by any trace, the ids
    returned so far by the successful [createTicket] calls are [1; 2; ...; k]
    in this order, and a further successful [createTicket] returns [k + 1]:
    the n-th ticket created has id n.  The ticket stored under the new id
    carries that id, the caller as creator, no assignee, the given strings,
    status [Open], and the call's timestamp as [createdAt] and [updatedAt].
    ([createTicket] has no guard; it succeeds unless the counter has
    reached [2^256 - 1].) *)
Theorem createTicket_sequential_ids creator txs env title description
    attachmentHash ticketId w' :
  call (createTicket env title description attachmentHash)
       (run (deploy creator) txs) = (Ok ticketId, w') →
  created_ids (deploy creator) txs
  = ids_upto (length (created_ids (deploy creator) txs))
  ∧ ticketId = N.of_nat (length (created_ids (deploy creator) txs)) + 1
  ∧ ticket_at (storage w') ticketId
    = Ticket.mk ticketId (msg_sender env) address0 title description
                attachmentHash Open (block_timestamp env) (block_timestamp env)
  ∧ nextTicketId (storage w') = ticketId + 1.
Proof.
  destruct (created_ids_consecutive (deploy creator) txs) as [Hids Hnext].
  rewrite nextTicketId_deploy in Hids, Hnext.
  unfold call. rewrite createTicket_run.
  case_decide; [ | done ]. intros [= <- <-]. simpl.
  split_and!.
  - rewrite Hids at 1. unfold ids_upto. rewrite <- seq_shift, map_map.
    apply map_ext. intros i. lia.
  - rewrite Hnext. lia.
  - unfold created, ticket_at; simpl. by rewrite lookup_insert_eq.
  - done.
Qed.

Lemma createTicket_sequential_ids_witness :
  (call (createTicket (mkEnv addr_A 130) "Second" "QmOther" "QmFile")
        (run (deploy addr_M) scenario)).1 = Ok 2
  ∧ created_ids (deploy addr_M) scenario = [1]
  ∧ ticket_at
      (storage (call (createTicket (mkEnv addr_A 130) "Second" "QmOther" "QmFile")
                     (run (deploy addr_M) scenario)).2) 2
    = Ticket.mk 2 addr_A address0 "Second" "QmOther" "QmFile" Open 130 130.
Proof.
  assert (Hcall :
    call (createTicket (mkEnv addr_A 130) "Second" "QmOther" "QmFile")
         (run (deploy addr_M) scenario)
    = (Ok 2, (call (createTicket (mkEnv addr_A 130) "Second" "QmOther" "QmFile")
                   (run (deploy addr_M) scenario)).2)) by (by vm_compute).
  destruct (createTicket_sequential_ids _ _ _ _ _ _ _ _ Hcall)
    as (Hids & _ & Hticket & _).
  split_and!; [ by vm_compute | by vm_compute | exact Hticket ].
Defined.

(** ** Comment ids along a trace *)

(** Only a successful [addComment] writes the comment lists, moves the
    comment id counter or logs a [CommentAdded] event. *)
Lemma step_comments w tx :
  (ticketComments (storage (step w tx).2) = ticketComments (storage w)
   ∧ nextCommentId (storage (step w tx).2) = nextCommentId (storage w)
   ∧ ∀ ticketId n author,
       CommentAdded ticketId n author ∈ logs (step w tx).2 →
       CommentAdded ticketId n author ∈ logs w)
  ∨ (∃ env ticketId content,
       tx = mkTx env (AddComment ticketId content)
       ∧ storage (step w tx).2 = commented env ticketId content (storage w)
       ∧ logs (step w tx).2
         = logs w ++ [CommentAdded ticketId (nextCommentId (storage w))
                                   (msg_sender env)]).
Proof.
  destruct tx as [env c]. destruct c.
  all: try (left; step_cases; split_and!; try done;
            intros ???; rewrite elem_of_app, list_elem_of_singleton;
            by intros [|]).
  - (* addComment *)
    unfold step, call, dispatch, mbind, Exec_bind; simpl.
    rewrite addComment_run.
    repeat (first [ case_bool_decide | case_decide ]); simpl;
      [ right; by eexists _, _, _ | by left.. ].
Qed.

Lemma comment_ids_below_counter_deploy creator :
  comment_ids_below_counter (deploy creator).
Proof.
  intros n [(ticketId & c & Hc & _)|(ticketId & author & Hlog)].
  - unfold comments_at in Hc; simpl in Hc.
    rewrite lookup_empty in Hc. by apply elem_of_nil in Hc.
  - simpl in Hlog. by apply elem_of_nil in Hlog.
Qed.

Lemma comment_ids_below_counter_step w tx :
  comment_ids_below_counter w → comment_ids_below_counter (step w tx).2.
Proof.
  intros Hinv.
  destruct (step_comments w tx)
    as [(Hsame & Hnext & Hlog)|(env & ticketId & content & -> & Hs & Hlog)].
  - intros n Hused. rewrite Hnext. apply Hinv.
    destruct Hused as [(t & c & Hc & Hid)|(t & a & Hin)].
    + left. exists t, c. split; [ | done ].
      unfold comments_at in *. by rewrite <- Hsame.
    + right. exists t, a. by apply Hlog.
  - intros n Hused. rewrite Hs. simpl.
    destruct Hused as [(t & c & Hc & Hid)|(t & a & Hin)].
    + rewrite Hs in Hc. unfold commented in Hc.
      destruct (decide (ticketId = t)) as [<-|Hne].
      * rewrite comments_at_push_eq in Hc.
        apply elem_of_app in Hc as [Hold|Hnew].
        -- assert (n < nextCommentId (storage w)); [ | lia ].
           apply Hinv. left. by exists ticketId, c.
        -- apply list_elem_of_singleton in Hnew. subst c. simpl in Hid. lia.
      * rewrite comments_at_push_ne in Hc by done.
        assert (n < nextCommentId (storage w)); [ | lia ].
        apply Hinv. left. by exists t, c.
    + rewrite Hlog in Hin. apply elem_of_app in Hin as [Hold|Hnew].
      * assert (n < nextCommentId (storage w)); [ | lia ].
        apply Hinv. right. by exists t, a.
      * apply list_elem_of_singleton in Hnew. simplify_eq. lia.
Qed.

Lemma comment_ids_below_counter_run w txs :
  comment_ids_below_counter w → comment_ids_below_counter (run w txs).
Proof.
  revert w. induction txs as [|tx rest IH]; intros w Hinv; simpl; [done|].
  by apply IH, comment_ids_below_counter_step.
Qed.

Lemma length_pos_nonempty (content : string) :
  (0 < String.length content)%nat ↔ content ≠ "".
Proof. destruct content; simpl; split; try done; lia. Qed.

(** The comment id counter starts at 1 and grows by at most one per call. *)
Lemma nextCommentId_bound creator txs :
  nextCommentId (storage (run (deploy creator) txs)) ≤ 1 + N.of_nat (length txs).
Proof.
  assert (∀ w, nextCommentId (storage (run w txs))
               ≤ nextCommentId (storage w) + N.of_nat (length txs)) as Hgen.
  { induction txs as [|tx rest IH]; intros w; simpl; [lia|].
    specialize (IH (step w tx).2).
    destruct (step_comments w tx)
      as [(_ & Hnext & _)|(env & ticketId & content & _ & Hs & _)].
    - rewrite Hnext in IH. lia.
    - rewrite Hs in IH. simpl in IH. lia. }
  exact (Hgen (deploy creator)).
Qed.

(** C6. For a ticket that exists in a state reached from initialization:
    [addComment] with empty content fails with [InvalidArgument]; with
    non-empty content (and a comment id counter that has not reached
    [2^256 - 1], where the checked increment panics; by
    [nextCommentId_bound] that takes [2^256 - 2] calls) it succeeds and the
    ticket's comment list becomes the old list followed by one new comment,
    so the earlier comments keep their order and content; the comment lists
    of the other tickets stay as they were; and the new comment's id, the
    value of the counter, is carried by no stored comment and was announced
    by no [CommentAdded] event before. *)
Theorem addComment_appends_fresh creator txs env ticketId content :
  let w := run (deploy creator) txs in
  ticket_exists w ticketId →
  (content = "" →
     fails_with (call (addComment env ticketId content) w).1 InvalidArgument)
  ∧ (content ≠ "" → nextCommentId (storage w) < UINT256_MAX →
     ∃ w', call (addComment env ticketId content) w = (Ok tt, w')
       ∧ comments_at (storage w') ticketId
         = comments_at (storage w) ticketId
           ++ [Comment.mk (nextCommentId (storage w)) ticketId (msg_sender env)
                          content (block_timestamp env)]
       ∧ (∀ other, other ≠ ticketId →
            comments_at (storage w') other = comments_at (storage w) other)
       ∧ ¬ comment_id_used w (nextCommentId (storage w))).
Proof.
  intros w Hex. split.
  - intros ->. rewrite call_fst, addComment_run. guard_true.
    rewrite bool_decide_eq_false_2 by (simpl; lia).
    by apply fails_with_revert.
  - intros Hne Hroom. eexists. split_and!.
    + apply call_ok. rewrite addComment_run. guard_true.
      rewrite bool_decide_eq_true_2 by (by apply length_pos_nonempty).
      rewrite decide_True by lia. reflexivity.
    + simpl. unfold commented. by rewrite comments_at_push_eq.
    + intros other Hother. simpl. unfold commented.
      by rewrite comments_at_push_ne.
    + intros Hused.
      assert (Hinv : comment_ids_below_counter w).
      { apply comment_ids_below_counter_run, comment_ids_below_counter_deploy. }
      apply Hinv in Hused. lia.
Qed.

Lemma addComment_appends_fresh_witness :
  ticket_exists (run (deploy addr_M) scenario) 1
  ∧ ∃ w', call (addComment (mkEnv addr_M 140) 1 "on it") (run (deploy addr_M) scenario)
          = (Ok tt, w')
      ∧ comments_at (storage w') 1
        = [ Comment.mk 1 1 addr_A "still broken" 105;
            Comment.mk 2 1 addr_M "on it" 140 ]
      ∧ ¬ comment_id_used (run (deploy addr_M) scenario) 2.
Proof.
  assert (Hex : ticket_exists (run (deploy addr_M) scenario) 1) by (by vm_compute).
  destruct (addComment_appends_fresh addr_M scenario (mkEnv addr_M 140) 1 "on it" Hex)
    as (_ & Hadd).
  destruct Hadd as (w' & Hcall & Hlist & _ & Hfresh);
    [ done | by vm_compute | ].
  split; [ exact Hex | ].
  exists w'. split_and!; [ exact Hcall | | exact Hfresh ].
  rewrite Hlist. by vm_compute.
Defined.

(** * Further properties of the contract *)

(** ** The ticket table in reachable states *)

Lemma tickets_wellformed_deploy creator : tickets_wellformed (deploy creator).
Proof.
  split; [ rewrite nextTicketId_deploy; lia | ].
  intros id. rewrite nextTicketId_deploy.
  unfold ticket_at; simpl. rewrite lookup_empty; simpl.
  case_decide; [lia | done].
Qed.

Lemma tickets_wellformed_step w tx :
  tickets_wellformed w → tickets_wellformed (step w tx).2.
Proof.
  intros [Hpos Hinv].
  destruct (step_ticket_ids w tx) as [[Hn Hids]|[Hn Hids]].
  - split; [ by rewrite Hn | ]. intros id. by rewrite Hids, Hn.
  - split; [ rewrite Hn; lia | ]. intros id. rewrite Hids, Hn, Hinv.
    repeat case_decide; try done; lia.
Qed.

Lemma tickets_wellformed_run w txs :
  tickets_wellformed w → tickets_wellformed (run w txs).
Proof.
  revert w. induction txs as [|tx rest IH]; intros w Hwf; simpl; [done|].
  by apply IH, tickets_wellformed_step.
Qed.

Lemma tickets_wellformed_reachable creator txs :
  tickets_wellformed (run (deploy creator) txs).
Proof. apply tickets_wellformed_run, tickets_wellformed_deploy. Qed.

Lemma tickets_wellformed_exists w ticketId :
  tickets_wellformed w →
  ticket_exists w ticketId ↔ 1 ≤ ticketId < nextTicketId (storage w).
Proof.
  intros [_ Hinv]. unfold ticket_exists. rewrite Hinv.
  case_decide; [ | done ]. split; [ done | lia ].
Qed.

Lemma nextTicketId_created creator txs :
  nextTicketId (storage (run (deploy creator) txs))
  = N.of_nat (length (created_ids (deploy creator) txs)) + 1.
Proof.
  destruct (created_ids_consecutive (deploy creator) txs) as [_ Hnext].
  rewrite Hnext, nextTicketId_deploy. lia.
Qed.

Lemma created_ids_upto creator txs :
  created_ids (deploy creator) txs
  = ids_upto (length (created_ids (deploy creator) txs)).
Proof.
  destruct (created_ids_consecutive (deploy creator) txs) as [Hids _].
  rewrite nextTicketId_deploy in Hids.
  rewrite Hids at 1. unfold ids_upto. rewrite <- seq_shift, map_map.
  apply map_ext. intros i. lia.
Qed.

Lemma elem_of_ids_upto (k : nat) (n : N) :
  n ∈ ids_upto k ↔ 1 ≤ n ≤ N.of_nat k.
Proof.
  unfold ids_upto. rewrite list_elem_of_In, in_map_iff. split.
  - intros (i & <- & Hi). apply in_seq in Hi. lia.
  - intros Hn. exists (N.to_nat n). split; [ lia | ]. apply in_seq. lia.
Qed.

(** X1. In every state reached from initialization, [getTicket(id)]
    succeeds exactly for the ids that a successful [createTicket] has
    returned; it then returns the stored record, whose [id] field is [id],
    and leaves the world alone; for every other id, 0 included, it fails
    with [NotFound]. *)
Theorem getTicket_domain creator txs ticketId :
  (is_ok (call (getTicket ticketId) (run (deploy creator) txs)).1 = true
   ↔ ticketId ∈ created_ids (deploy creator) txs)
  ∧ (ticketId ∈ created_ids (deploy creator) txs →
     call (getTicket ticketId) (run (deploy creator) txs)
     = (Ok (ticket_at (storage (run (deploy creator) txs)) ticketId),
        run (deploy creator) txs)
     ∧ Ticket.id (ticket_at (storage (run (deploy creator) txs)) ticketId)
       = ticketId)
  ∧ (ticketId ∉ created_ids (deploy creator) txs →
     fails_with (call (getTicket ticketId) (run (deploy creator) txs)).1 NotFound).
Proof.
  pose proof (tickets_wellformed_reachable creator txs) as Hwf.
  pose proof (tickets_wellformed_exists _ ticketId Hwf) as Hex.
  assert (Hin : ticketId ∈ created_ids (deploy creator) txs
                ↔ ticket_exists (run (deploy creator) txs) ticketId).
  { rewrite Hex, created_ids_upto, elem_of_ids_upto, nextTicketId_created. lia. }
  unfold call. rewrite getTicket_run. split_and!.
  - rewrite Hin. by case_bool_decide.
  - intros Hid%Hin. guard_true. split; [done|].
    destruct Hwf as [_ Hinv]. rewrite Hinv. apply Hex in Hid.
    by rewrite decide_True.
  - intros Hid. rewrite Hin in Hid. guard_false. by apply fails_with_revert.
Qed.

Lemma getTicket_domain_witness :
  1 ∈ created_ids (deploy addr_M) scenario
  ∧ (call (getTicket 1) (run (deploy addr_M) scenario)).1
    = Ok (Ticket.mk 1 addr_A address0 "Printer jam" "QmDescription" ""
                    Open 100 104)
  ∧ (0 ∉ created_ids (deploy addr_M) scenario)
  ∧ fails_with (call (getTicket 0) (run (deploy addr_M) scenario)).1 NotFound.
Proof.
  assert (H1 : 1 ∈ created_ids (deploy addr_M) scenario)
    by (vm_compute; apply list_elem_of_here).
  assert (H0 : 0 ∉ created_ids (deploy addr_M) scenario).
  { vm_compute. intros H. apply list_elem_of_singleton in H. discriminate. }
  destruct (getTicket_domain addr_M scenario 1) as (_ & Hok & _).
  destruct (getTicket_domain addr_M scenario 0) as (_ & _ & Hbad).
  destruct (Hok H1) as [Hcall _].
  split_and!; [ exact H1 | rewrite Hcall; by vm_compute | exact H0 | by apply Hbad ].
Defined.

(** X2. In a state reached from initialization in which at most
    [2^64 - 1] tickets have been created, [getAllTickets] succeeds and
    returns one record per successful [createTicket] so far, in the order of
    creation: the ids of the records are the ids returned by those calls,
    and the record at position [i] is the one that [getTicket(i + 1)]
    returns.  With more tickets than that the allocation of the result is
    refused: the call fails with [Panic(0x41)] and changes nothing. *)
Theorem getAllTickets_lists_created creator txs :
  (N.of_nat (length (created_ids (deploy creator) txs)) ≤ MAX_ARRAY_LENGTH →
   ∃ l, call getAllTickets (run (deploy creator) txs)
        = (Ok l, run (deploy creator) txs)
     ∧ map Ticket.id l = created_ids (deploy creator) txs
     ∧ ∀ (i : nat) x, l !! i = Some x →
         call (getTicket (N.of_nat (S i))) (run (deploy creator) txs)
         = (Ok x, run (deploy creator) txs))
  ∧ (MAX_ARRAY_LENGTH < N.of_nat (length (created_ids (deploy creator) txs)) →
     call getAllTickets (run (deploy creator) txs)
     = (Err (Panic 65), run (deploy creator) txs)).
Proof.
  pose proof (tickets_wellformed_reachable creator txs) as Hwf.
  destruct Hwf as [Hpos Hinv].
  pose proof (nextTicketId_created creator txs) as Hnext.
  set (w := run (deploy creator) txs) in *.
  set (k := length (created_ids (deploy creator) txs)) in *.
  assert (Hk : N.to_nat (nextTicketId (storage w) - 1) = k) by lia.
  split.
  - intros Hcount. eexists. split_and!.
    + apply call_ok. rewrite getAllTickets_run.
      rewrite decide_True by done. by rewrite decide_True by lia.
    + rewrite Hk, map_map, created_ids_upto. fold k. unfold ids_upto.
      apply map_ext_in. intros i Hi%in_seq. rewrite Hinv.
      rewrite decide_True; [done | lia].
    + intros i x Hx. rewrite Hk in Hx.
      change (map ?f ?l) with (f <$> l) in Hx.
      rewrite list_lookup_fmap in Hx.
      destruct (seq 1 k !! i) as [j|] eqn:Hj; [ | done ].
      apply lookup_seq in Hj as [-> Hlt]. simpl in Hx. injection Hx as <-.
      apply call_ok. rewrite getTicket_run.
      rewrite bool_decide_eq_true_2; [ done | ].
      unfold ticket_exists. rewrite Hinv. rewrite decide_True; lia.
  - intros Hcount. unfold call. rewrite getAllTickets_run.
    rewrite decide_True by done. by rewrite decide_False by lia.
Qed.

Lemma getAllTickets_lists_created_witness :
  N.of_nat (length (created_ids (deploy addr_M) scenario)) ≤ MAX_ARRAY_LENGTH
  ∧ ∃ l, call getAllTickets (run (deploy addr_M) scenario)
         = (Ok l, run (deploy addr_M) scenario)
      ∧ map Ticket.id l = [1].
Proof.
  assert (Hcount : N.of_nat (length (created_ids (deploy addr_M) scenario))
                   ≤ MAX_ARRAY_LENGTH) by (by vm_compute).
  destruct (getAllTickets_lists_created addr_M scenario) as [Hok _].
  destruct (Hok Hcount) as (l & Hcall & Hids & _).
  split; [ exact Hcount | ].
  exists l. split; [ exact Hcall | ]. rewrite Hids. by vm_compute.
Defined.

(** X3. Right after deployment the deployer is the one and only Manager,
    no ticket exists, [getAllTickets] returns the empty list, the log is
    empty and both counters are 1. *)
Theorem deploy_state creator :
  (∀ user, is_manager (deploy creator) user ↔ user = creator)
  ∧ (∀ ticketId, ¬ ticket_exists (deploy creator) ticketId)
  ∧ call getAllTickets (deploy creator) = (Ok [], deploy creator)
  ∧ logs (deploy creator) = []
  ∧ nextTicketId (storage (deploy creator)) = 1
  ∧ nextCommentId (storage (deploy creator)) = 1.
Proof.
  split_and!; try done.
  - intros user. unfold is_manager. rewrite deploy_storage. split.
    + intros Hrole. destruct (decide (creator = user)) as [<-|Hne]; [done|].
      by rewrite role_of_set_role_ne, role_of_initial in Hrole.
    + intros ->. apply role_of_set_role_eq.
  - intros ticketId Hex.
    apply (tickets_wellformed_exists _ _ (tickets_wellformed_deploy creator)) in Hex.
    rewrite nextTicketId_deploy in Hex. lia.
Qed.

(** ** What never changes in a ticket *)

Lemma same_identity_refl x : same_identity x x.
Proof. by repeat split. Qed.

Lemma same_identity_trans x y z :
  same_identity x y → same_identity y z → same_identity x z.
Proof.
  unfold same_identity. intros (?&?&?&?&?&?) (?&?&?&?&?&?).
  split_and!; congruence.
Qed.

Lemma same_identity_update ticketId f s other :
  (∀ x, same_identity x (f x)) →
  same_identity (ticket_at s other) (ticket_at (update_ticket ticketId f s) other).
Proof.
  intros Hf. destruct (decide (ticketId = other)) as [<-|Hne].
  - rewrite ticket_at_update_eq. apply Hf.
  - rewrite ticket_at_update_ne by done. apply same_identity_refl.
Qed.

Lemma same_identity_step w tx ticketId :
  tickets_wellformed w →
  ticket_exists w ticketId →
  same_identity (ticket_at (storage w) ticketId)
                (ticket_at (storage (step w tx).2) ticketId).
Proof.
  intros Hwf Hex. destruct tx as [env c]. destruct c.
  all: try (step_cases;
            unfold status_updated, assigned, reopened;
            repeat (eapply same_identity_trans;
                    [ | apply same_identity_update; by intros [] ]);
            apply same_identity_refl).
  unfold step, call, dispatch, mbind, Exec_bind; simpl.
  rewrite createTicket_run. case_decide; simpl; [ | apply same_identity_refl ].
  apply (tickets_wellformed_exists _ _ Hwf) in Hex.
  unfold created, ticket_at; simpl.
  rewrite lookup_insert_ne by lia. apply same_identity_refl.
Qed.

(** X4. Tickets are never deleted and their identity is permanent: a ticket
    that exists in a state reached from initialization exists after any
    further calls, by whomever, with the same [id], [creator], [title],
    [description], [attachmentHash] and [createdAt]. *)
Theorem ticket_identity_is_permanent creator txs more ticketId :
  ticket_exists (run (deploy creator) txs) ticketId →
  ticket_exists (run (run (deploy creator) txs) more) ticketId
  ∧ same_identity
      (ticket_at (storage (run (deploy creator) txs)) ticketId)
      (ticket_at (storage (run (run (deploy creator) txs) more)) ticketId).
Proof.
  pose proof (tickets_wellformed_reachable creator txs) as Hwf.
  revert Hwf. generalize (run (deploy creator) txs) as w.
  induction more as [|tx rest IH]; intros w Hwf Hex; simpl.
  { split; [ done | apply same_identity_refl ]. }
  pose proof (same_identity_step w tx ticketId Hwf Hex) as Hstep.
  assert (Hex' : ticket_exists (step w tx).2 ticketId).
  { unfold ticket_exists in *. destruct Hstep as [-> _]. done. }
  destruct (IH (step w tx).2 (tickets_wellformed_step _ _ Hwf) Hex') as [Hex'' Hid].
  split; [ done | by eapply same_identity_trans ].
Qed.

Lemma ticket_identity_is_permanent_witness :
  ticket_exists (scenario_at 1) 1
  ∧ ticket_exists (run (scenario_at 1) (drop 1 scenario)) 1
  ∧ Ticket.creator (ticket_at (storage (run (scenario_at 1) (drop 1 scenario))) 1)
    = addr_A.
Proof.
  assert (Hex : ticket_exists (run (deploy addr_M) (take 1 scenario)) 1)
    by (by vm_compute).
  destruct (ticket_identity_is_permanent addr_M (take 1 scenario) (drop 1 scenario)
              1 Hex) as (Hex' & _ & Hcreator & _).
  split_and!; [ exact Hex | exact Hex' | ].
  unfold scenario_at. rewrite Hcreator. by vm_compute.
Defined.

(** ** Which guard answers first *)

(** X5. A caller that is not a Manager gets [Unauthorized] from each of the
    five Manager-only functions, whatever the arguments: the role check of
    [onlyManager] runs before the existence check of the ticket and before
    the check of the assignee, so also for a ticket that does not exist. *)
Theorem manager_guard_comes_first env ticketId assignee user role w :
  ¬ is_manager w (msg_sender env) →
  fails_with (call (assignTicket env ticketId assignee) w).1 Unauthorized
  ∧ fails_with (call (resolveTicket env ticketId) w).1 Unauthorized
  ∧ fails_with (call (closeTicket env ticketId) w).1 Unauthorized
  ∧ fails_with (call (reopenTicket env ticketId) w).1 Unauthorized
  ∧ fails_with (call (setUserRole env user role) w).1 Unauthorized.
Proof.
  intros Hno. rewrite !call_fst.
  rewrite assignTicket_run, resolveTicket_run, closeTicket_run,
    reopenTicket_run, setUserRole_run.
  guard_false. simpl. split_and!; by apply fails_with_revert.
Qed.

Lemma manager_guard_comes_first_witness :
  ¬ is_manager (scenario_at 1) addr_A
  ∧ ¬ ticket_exists (scenario_at 1) 7
  ∧ fails_with (call (closeTicket (mkEnv addr_A 101) 7) (scenario_at 1)).1
               Unauthorized
  ∧ fails_with (call (setUserRole (mkEnv addr_A 101) addr_A Manager)
                     (scenario_at 1)).1 Unauthorized.
Proof.
  assert (Hno : ¬ is_manager (scenario_at 1) addr_A) by (by vm_compute).
  destruct (manager_guard_comes_first (mkEnv addr_A 101) 7 addr_A addr_A Manager
              (scenario_at 1) Hno) as (_ & _ & Hclose & _ & Hrole).
  split_and!; [ exact Hno | by vm_compute | exact Hclose | exact Hrole ].
Defined.

(** X6. For a ticket id that does not exist, [updateStatus], [addComment],
    [getTicket] and [getTicketComments] fail with [NotFound] for every
    caller and every argument (the existence check comes before the
    authorization check of [updateStatus] and before the check for empty
    content), and so do [assignTicket], [resolveTicket], [closeTicket] and
    [reopenTicket] when the caller is a Manager, also when the assignee is
    no Manager. *)
Theorem missing_ticket_is_not_found env ticketId status assignee content w :
  ¬ ticket_exists w ticketId →
  fails_with (call (updateStatus env ticketId status) w).1 NotFound
  ∧ fails_with (call (addComment env ticketId content) w).1 NotFound
  ∧ fails_with (call (getTicket ticketId) w).1 NotFound
  ∧ fails_with (call (getTicketComments ticketId) w).1 NotFound
  ∧ (is_manager w (msg_sender env) →
     fails_with (call (assignTicket env ticketId assignee) w).1 NotFound
     ∧ fails_with (call (resolveTicket env ticketId) w).1 NotFound
     ∧ fails_with (call (closeTicket env ticketId) w).1 NotFound
     ∧ fails_with (call (reopenTicket env ticketId) w).1 NotFound).
Proof.
  intros Hno. rewrite !call_fst.
  rewrite updateStatus_run, addComment_run, getTicket_run, getTicketComments_run,
    assignTicket_run, resolveTicket_run, closeTicket_run, reopenTicket_run.
  guard_false. simpl. split_and!; try by apply fails_with_revert.
  intros Hman. guard_true. split_and!; by apply fails_with_revert.
Qed.

Lemma missing_ticket_is_not_found_witness :
  ¬ ticket_exists (scenario_at 2) 0
  ∧ fails_with (call (addComment (mkEnv addr_A 110) 0 "") (scenario_at 2)).1
               NotFound
  ∧ fails_with (call (assignTicket (mkEnv addr_M 110) 0 addr_A) (scenario_at 2)).1
               NotFound.
Proof.
  assert (Hno : ¬ ticket_exists (scenario_at 2) 0).
  { intros Hex. apply Hex. by vm_compute. }
  destruct (missing_ticket_is_not_found (mkEnv addr_M 110) 0 Open addr_A ""
              (scenario_at 2) Hno) as (_ & Hadd & _ & _ & Hman).
  split_and!; [ exact Hno | exact Hadd | ].
  apply Hman. by vm_compute.
Defined.

(** ** The event log *)

(** X7. A call appends to the log exactly this: one [TicketCreated],
    [StatusUpdated], [TicketAssigned], [TicketReopened] or [CommentAdded]
    event, carrying the arguments and the caller, when [createTicket],
    [updateStatus], [resolveTicket], [closeTicket], [assignTicket],
    [reopenTicket] or [addComment] succeeds; nothing when the call fails,
    when it is a read, and when it is [setUserRole], which emits no event.
    Nothing logged before is changed. *)
Theorem step_log w tx :
  logs (step w tx).2
  = logs w ++
    match tx_call tx, (step w tx).1 with
    | CreateTicket title _ _, Ok (VUint n) =>
        [TicketCreated n (msg_sender (tx_env tx)) title]
    | UpdateStatus ticketId status, Ok _ =>
        [StatusUpdated ticketId status (msg_sender (tx_env tx))]
    | AssignTicket ticketId assignee, Ok _ =>
        [TicketAssigned ticketId assignee (msg_sender (tx_env tx))]
    | ResolveTicket ticketId, Ok _ =>
        [StatusUpdated ticketId Resolved (msg_sender (tx_env tx))]
    | CloseTicket ticketId, Ok _ =>
        [StatusUpdated ticketId Closed (msg_sender (tx_env tx))]
    | ReopenTicket ticketId, Ok _ =>
        [TicketReopened ticketId (msg_sender (tx_env tx))]
    | AddComment ticketId _, Ok _ =>
        [CommentAdded ticketId (nextCommentId (storage w)) (msg_sender (tx_env tx))]
    | _, _ => []
    end.
Proof.
  destruct tx as [env c]. destruct c; step_cases; by rewrite app_nil_r.
Qed.

Lemma ids_upto_S (k : nat) : ids_upto (S k) = ids_upto k ++ [N.of_nat (S k)].
Proof. unfold ids_upto. by rewrite seq_S, map_app. Qed.

Lemma step_logged_ticket_ids w tx :
  logged_ticket_ids (logs (step w tx).2)
  = logged_ticket_ids (logs w) ++
    match tx_call tx, (step w tx).1 with
    | CreateTicket _ _ _, Ok (VUint n) => [n]
    | _, _ => []
    end.
Proof.
  unfold logged_ticket_ids. destruct tx as [env c].
  destruct c; step_cases; rewrite ?omap_app; simpl; by rewrite ?app_nil_r.
Qed.

Lemma run_logged_ticket_ids w txs :
  logged_ticket_ids (logs (run w txs))
  = logged_ticket_ids (logs w) ++ created_ids w txs.
Proof.
  revert w. induction txs as [|tx rest IH]; intros w; simpl.
  { by rewrite app_nil_r. }
  rewrite IH, step_logged_ticket_ids.
  destruct (tx_call tx), ((step w tx).1) as [[]|];
    rewrite <- ?app_assoc; simpl; by rewrite ?app_nil_r.
Qed.

Lemma step_logged_comment_ids w tx :
  (nextCommentId (storage (step w tx).2) = nextCommentId (storage w)
   ∧ logged_comment_ids (logs (step w tx).2) = logged_comment_ids (logs w))
  ∨ (nextCommentId (storage (step w tx).2) = nextCommentId (storage w) + 1
     ∧ logged_comment_ids (logs (step w tx).2)
       = logged_comment_ids (logs w) ++ [nextCommentId (storage w)]).
Proof.
  unfold logged_comment_ids.
  destruct tx as [env c]. destruct c.
  all: try (left; step_cases; rewrite ?omap_app; simpl; by rewrite ?app_nil_r).
  unfold step, call, dispatch, mbind, Exec_bind; simpl.
  rewrite addComment_run.
  repeat (first [ case_bool_decide | case_decide ]); simpl;
    [ right; by rewrite omap_app | by left.. ].
Qed.

(** X8. The log suffices to rebuild both counters: in every state reached
    from initialization, the ticket ids of the [TicketCreated] events are,
    in log order, the ids returned by the successful [createTicket] calls,
    that is [1 .. nextTicketId - 1], and the comment ids of the
    [CommentAdded] events are [1 .. nextCommentId - 1]. *)
Theorem log_announces_every_id creator txs :
  logged_ticket_ids (logs (run (deploy creator) txs))
  = created_ids (deploy creator) txs
  ∧ logged_ticket_ids (logs (run (deploy creator) txs))
    = ids_upto (N.to_nat (nextTicketId (storage (run (deploy creator) txs)) - 1))
  ∧ logged_comment_ids (logs (run (deploy creator) txs))
    = ids_upto (N.to_nat (nextCommentId (storage (run (deploy creator) txs)) - 1)).
Proof.
  assert (Hticket : logged_ticket_ids (logs (run (deploy creator) txs))
                    = created_ids (deploy creator) txs)
    by (by rewrite run_logged_ticket_ids).
  split_and!; [ done | | ].
  - rewrite Hticket, nextTicketId_created.
    rewrite created_ids_upto at 1. f_equal. lia.
  - clear Hticket.
    assert (∀ w,
      (1 ≤ nextCommentId (storage w)
       ∧ logged_comment_ids (logs w)
         = ids_upto (N.to_nat (nextCommentId (storage w) - 1))) →
      logged_comment_ids (logs (run w txs))
      = ids_upto (N.to_nat (nextCommentId (storage (run w txs)) - 1))) as Hgen.
    { induction txs as [|tx rest IH]; intros w [Hpos Hlog]; simpl; [done|].
      apply IH.
      destruct (step_logged_comment_ids w tx) as [[-> ->]|[-> ->]]; [done|].
      split; [lia|]. rewrite Hlog.
      replace (N.to_nat (nextCommentId (storage w) + 1 - 1))
        with (S (N.to_nat (nextCommentId (storage w) - 1))) by lia.
      rewrite ids_upto_S. do 2 f_equal. lia. }
    apply Hgen. split; [ done | reflexivity ].
Qed.

(** ** The comment lists in reachable states *)

Lemma ticket_exists_step w tx ticketId :
  tickets_wellformed w → ticket_exists w ticketId →
  ticket_exists (step w tx).2 ticketId.
Proof.
  intros Hwf Hex. unfold ticket_exists in *.
  by destruct (same_identity_step w tx ticketId Hwf Hex) as [-> _].
Qed.

(** A call that changed the comment lists passed the guards of [addComment]. *)
Lemma step_commented w env ticketId content :
  storage (step w (mkTx env (AddComment ticketId content))).2
  = commented env ticketId content (storage w) →
  ticket_exists w ticketId ∧ content ≠ "".
Proof.
  unfold step, call, dispatch, mbind, Exec_bind; simpl.
  rewrite addComment_run.
  repeat (first [ case_bool_decide | case_decide ]); simpl.
  - intros _. split; [ done | by apply length_pos_nonempty ].
  - intros Hs. apply (f_equal nextCommentId) in Hs. simpl in Hs. lia.
  - intros Hs. apply (f_equal nextCommentId) in Hs. simpl in Hs. lia.
  - intros Hs. apply (f_equal nextCommentId) in Hs. simpl in Hs. lia.
Qed.

Lemma comments_wellformed_deploy creator : comments_wellformed (deploy creator).
Proof.
  assert (Hnil : ∀ t, comments_at (storage (deploy creator)) t = []).
  { intros t. unfold comments_at; simpl. by rewrite lookup_empty. }
  split_and!; [ done | | | ].
  - intros t c Hc. rewrite Hnil in Hc. by apply elem_of_nil in Hc.
  - intros t i j c1 c2 _ Hc. by rewrite Hnil in Hc.
  - intros t1 t2 c1 c2 Hc. rewrite Hnil in Hc. by apply elem_of_nil in Hc.
Qed.

Lemma comments_wellformed_step w tx :
  tickets_wellformed w → comments_wellformed w →
  comments_wellformed (step w tx).2.
Proof.
  intros Hwf (Hpos & Hfields & Hincr & Huniq).
  destruct (step_comments w tx)
    as [(Hsame & Hnext & _)|(env & ticketId & content & -> & Hs & _)].
  - assert (Hat : ∀ t, comments_at (storage (step w tx).2) t
                       = comments_at (storage w) t).
    { intros t. unfold comments_at. by rewrite Hsame. }
    split_and!.
    + by rewrite Hnext.
    + intros t c Hc. rewrite Hat in Hc. rewrite Hnext.
      destruct (Hfields t c Hc) as (? & ? & ? & Hex).
      split_and!; try done; try lia. by apply ticket_exists_step.
    + intros t i j c1 c2 Hij H1 H2. rewrite Hat in H1, H2. by eapply Hincr.
    + intros t1 t2 c1 c2 H1 H2. rewrite Hat in H1, H2. by eapply Huniq.
  - destruct (step_commented w env ticketId content Hs) as [Hex Hne].
    set (w' := (step w (mkTx env (AddComment ticketId content))).2) in *.
    set (new := Comment.mk (nextCommentId (storage w)) ticketId (msg_sender env)
                           content (block_timestamp env)).
    assert (Hexists : ∀ t, ticket_exists w t → ticket_exists w' t).
    { intros t Ht. unfold ticket_exists. by rewrite Hs. }
    assert (Hmem : ∀ t c, c ∈ comments_at (storage w') t →
                          c ∈ comments_at (storage w) t
                          ∨ (t = ticketId ∧ c = new)).
    { intros t c. rewrite Hs. unfold commented.
      destruct (decide (ticketId = t)) as [<-|Hd].
      - rewrite comments_at_push_eq, elem_of_app, list_elem_of_singleton.
        intros [|]; auto.
      - rewrite comments_at_push_ne by done. auto. }
    assert (Hold : ∀ t c, c ∈ comments_at (storage w) t →
                          Comment.id c < nextCommentId (storage w)).
    { intros t c Hc. destruct (Hfields t c Hc) as (_ & _ & ? & _). lia. }
    split_and!.
    + rewrite Hs. simpl. lia.
    + intros t c [Hc|[-> ->]]%Hmem.
      * destruct (Hfields t c Hc) as (? & ? & ? & ?).
        rewrite Hs; simpl. split_and!; try done; try lia. by apply Hexists.
      * rewrite Hs; simpl. split_and!; try done; try lia. by apply Hexists.
    + intros t i j c1 c2 Hij. rewrite Hs. unfold commented.
      destruct (decide (ticketId = t)) as [<-|Hd].
      * rewrite comments_at_push_eq.
        intros H1 H2.
        apply lookup_snoc_Some in H2 as [[Hj H2]|[Hj <-]].
        -- rewrite lookup_app_l in H1 by lia.
           exact (Hincr _ _ _ _ _ Hij H1 H2).
        -- rewrite lookup_app_l in H1 by lia. simpl.
           apply (Hold ticketId). apply list_elem_of_lookup. by exists i.
      * rewrite comments_at_push_ne by done.
        intros H1 H2. exact (Hincr _ _ _ _ _ Hij H1 H2).
    + intros t1 t2 c1 c2 [H1|[-> ->]]%Hmem [H2|[-> ->]]%Hmem Hid.
      * by eapply Huniq.
      * apply Hold in H1. simpl in Hid. lia.
      * apply Hold in H2. simpl in Hid. lia.
      * done.
Qed.

Lemma wellformed_reachable creator txs :
  tickets_wellformed (run (deploy creator) txs)
  ∧ comments_wellformed (run (deploy creator) txs).
Proof.
  assert (∀ w, tickets_wellformed w → comments_wellformed w →
               tickets_wellformed (run w txs) ∧ comments_wellformed (run w txs))
    as Hgen.
  { induction txs as [|tx rest IH]; intros w Ht Hc; simpl; [done|].
    apply IH; [ by apply tickets_wellformed_step
              | by apply comments_wellformed_step ]. }
  apply Hgen; [ apply tickets_wellformed_deploy | apply comments_wellformed_deploy ].
Qed.

(** X9. In every state reached from initialization, [getTicketComments(id)]
    fails with [NotFound] for a ticket that does not exist and otherwise
    returns that ticket's stored list without changing the world; every
    comment in it names this ticket in its [ticketId], has non-empty content
    and an id in [1 .. nextCommentId - 1]; and no comment is stored under an
    id of a ticket that does not exist. *)
Theorem getTicketComments_wellformed creator txs ticketId :
  (¬ ticket_exists (run (deploy creator) txs) ticketId →
     fails_with (call (getTicketComments ticketId) (run (deploy creator) txs)).1
                NotFound
     ∧ comments_at (storage (run (deploy creator) txs)) ticketId = [])
  ∧ (ticket_exists (run (deploy creator) txs) ticketId →
     call (getTicketComments ticketId) (run (deploy creator) txs)
     = (Ok (comments_at (storage (run (deploy creator) txs)) ticketId),
        run (deploy creator) txs)
     ∧ ∀ c, c ∈ comments_at (storage (run (deploy creator) txs)) ticketId →
         Comment.ticketId c = ticketId
         ∧ Comment.content c ≠ ""
         ∧ 1 ≤ Comment.id c
             < nextCommentId (storage (run (deploy creator) txs))).
Proof.
  destruct (wellformed_reachable creator txs) as [_ (_ & Hfields & _)].
  unfold call. rewrite getTicketComments_run. split.
  - intros Hno. guard_false. split; [ by apply fails_with_revert | ].
    destruct (comments_at _ ticketId) as [|c l] eqn:Hl; [done|].
    destruct (Hfields ticketId c) as (_ & _ & _ & Hex); [ | done ].
    rewrite Hl. apply list_elem_of_here.
  - intros Hex. guard_true. split; [done|].
    intros c Hc. destruct (Hfields ticketId c Hc) as (? & ? & ? & _). done.
Qed.

Lemma getTicketComments_wellformed_witness :
  ticket_exists (run (deploy addr_M) scenario) 1
  ∧ (call (getTicketComments 1) (run (deploy addr_M) scenario)).1
    = Ok [Comment.mk 1 1 addr_A "still broken" 105]
  ∧ ¬ ticket_exists (run (deploy addr_M) scenario) 2
  ∧ comments_at (storage (run (deploy addr_M) scenario)) 2 = [].
Proof.
  assert (Hex : ticket_exists (run (deploy addr_M) scenario) 1) by (by vm_compute).
  assert (Hno : ¬ ticket_exists (run (deploy addr_M) scenario) 2).
  { intros H. apply H. by vm_compute. }
  destruct (getTicketComments_wellformed addr_M scenario 1) as [_ Hok].
  destruct (getTicketComments_wellformed addr_M scenario 2) as [Hbad _].
  destruct (Hok Hex) as [Hcall _]. destruct (Hbad Hno) as [_ Hnil].
  split_and!; [ exact Hex | rewrite Hcall; by vm_compute | exact Hno | exact Hnil ].
Defined.

(** X10. Comment ids are unique over the whole contract and grow inside each
    list: in every state reached from initialization, two stored comments
    have the same id only if they are the same entry of the same ticket's
    list, and in one list a later comment has a larger id than an earlier
    one. *)
Theorem comment_ids_are_unique creator txs t1 t2 (i j : nat) c1 c2 :
  comments_at (storage (run (deploy creator) txs)) t1 !! i = Some c1 →
  comments_at (storage (run (deploy creator) txs)) t2 !! j = Some c2 →
  (Comment.id c1 = Comment.id c2 ↔ t1 = t2 ∧ i = j)
  ∧ (t1 = t2 → ((i < j)%nat ↔ Comment.id c1 < Comment.id c2)).
Proof.
  destruct (wellformed_reachable creator txs) as [_ (_ & _ & Hincr & Huniq)].
  intros H1 H2.
  assert (Hsame : t1 = t2 → ((i < j)%nat ↔ Comment.id c1 < Comment.id c2)).
  { intros <-. split; [ intros Hij; by eapply Hincr | ].
    intros Hlt. destruct (decide (i < j)%nat) as [|Hge]; [done|].
    destruct (decide (i = j)) as [->|Hne].
    - rewrite H1 in H2. injection H2 as <-. lia.
    - assert (Comment.id c2 < Comment.id c1); [ | lia ].
      eapply (Hincr t1 j i); [ lia | done.. ]. }
  split; [ | done ]. split.
  - intros Hid.
    assert (t1 = t2) as <-.
    { eapply Huniq; [ | | done ]; apply list_elem_of_lookup; eauto. }
    split; [done|].
    destruct (decide (i = j)) as [|Hne]; [done|].
    destruct (decide (i < j)%nat) as [Hij|Hji].
    + apply (Hincr t1 i j c1 c2) in Hij; [ lia | done.. ].
    + assert (Comment.id c2 < Comment.id c1); [ | lia ].
      eapply (Hincr t1 j i); [ lia | done.. ].
  - intros [<- <-]. rewrite H1 in H2. by injection H2 as <-.
Qed.

Lemma comment_ids_are_unique_witness :
  comments_at
    (storage (run (deploy addr_M)
                  (scenario ++ [mkTx (mkEnv addr_M 140) (AddComment 1 "on it")])))
    1 !! 1%nat
  = Some (Comment.mk 2 1 addr_M "on it" 140)
  ∧ ((0 < 1)%nat ↔ (1 : N) < 2).
Proof.
  assert (H0 : comments_at
                 (storage (run (deploy addr_M)
                    (scenario ++ [mkTx (mkEnv addr_M 140) (AddComment 1 "on it")])))
                 1 !! 0%nat
               = Some (Comment.mk 1 1 addr_A "still broken" 105)) by (by vm_compute).
  assert (H1 : comments_at
                 (storage (run (deploy addr_M)
                    (scenario ++ [mkTx (mkEnv addr_M 140) (AddComment 1 "on it")])))
                 1 !! 1%nat
               = Some (Comment.mk 2 1 addr_M "on it" 140)) by (by vm_compute).
  destruct (comment_ids_are_unique _ _ _ _ _ _ _ _ H0 H1) as [_ Horder].
  split; [ exact H1 | exact (Horder eq_refl) ].
Defined.

(** ** History only grows *)

Lemma step_history w tx ticketId :
  comments_at (storage w) ticketId
    `prefix_of` comments_at (storage (step w tx).2) ticketId
  ∧ logs w `prefix_of` logs (step w tx).2
  ∧ nextTicketId (storage w) ≤ nextTicketId (storage (step w tx).2)
  ∧ nextCommentId (storage w) ≤ nextCommentId (storage (step w tx).2).
Proof.
  split_and!.
  - destruct (step_comments w tx)
      as [(Hsame & _ & _)|(env & t & content & -> & Hs & _)].
    + unfold comments_at. by rewrite Hsame.
    + rewrite Hs. unfold commented.
      destruct (decide (t = ticketId)) as [<-|Hne].
      * rewrite comments_at_push_eq. by apply prefix_app_r.
      * by rewrite comments_at_push_ne.
  - rewrite step_log. by apply prefix_app_r.
  - pose proof (step_nextTicketId w tx) as Hstep.
    destruct (tx_call tx), ((step w tx).1) as [[]|]; lia.
  - destruct (step_comments w tx)
      as [(_ & -> & _)|(env & t & content & -> & Hs & _)]; [done|].
    rewrite Hs. simpl. lia.
Qed.

(** X11. History is append-only: from any state and through any calls, the
    comment list of each ticket only grows at its end (no comment is edited,
    removed or reordered), the event log only grows at its end, and neither
    counter ever decreases. *)
Theorem history_only_grows w txs ticketId :
  comments_at (storage w) ticketId
    `prefix_of` comments_at (storage (run w txs)) ticketId
  ∧ logs w `prefix_of` logs (run w txs)
  ∧ nextTicketId (storage w) ≤ nextTicketId (storage (run w txs))
  ∧ nextCommentId (storage w) ≤ nextCommentId (storage (run w txs)).
Proof.
  revert w. induction txs as [|tx rest IH]; intros w; simpl.
  { split_and!; done. }
  destruct (step_history w tx ticketId) as (Hc & Hl & Ht & Hn).
  destruct (IH (step w tx).2) as (Hc' & Hl' & Ht' & Hn').
  split_and!; [ by etrans | by etrans | lia | lia ].
Qed.

(** ** Roles *)

Lemma step_without_manager w tx :
  ¬ has_manager w → userRoles (storage (step w tx).2) = userRoles (storage w).
Proof.
  intros Hno. rewrite step_userRoles.
  destruct (tx_call tx); try done.
  rewrite bool_decide_eq_false_2; [ done | ].
  intros Hman. apply Hno. by eexists.
Qed.

(** X12. A contract without a Manager stays without one: from a state in
    which no identity holds the Manager role, whatever calls follow, the
    role table never changes again and [assignTicket], [resolveTicket],
    [closeTicket], [reopenTicket] and [setUserRole] fail with
    [Unauthorized] for every caller. *)
Theorem no_manager_is_forever w txs :
  ¬ has_manager w →
  userRoles (storage (run w txs)) = userRoles (storage w)
  ∧ ¬ has_manager (run w txs)
  ∧ ∀ env ticketId assignee user role,
      fails_with (call (assignTicket env ticketId assignee) (run w txs)).1
                 Unauthorized
      ∧ fails_with (call (resolveTicket env ticketId) (run w txs)).1 Unauthorized
      ∧ fails_with (call (closeTicket env ticketId) (run w txs)).1 Unauthorized
      ∧ fails_with (call (reopenTicket env ticketId) (run w txs)).1 Unauthorized
      ∧ fails_with (call (setUserRole env user role) (run w txs)).1 Unauthorized.
Proof.
  intros Hno.
  assert (Hroles : userRoles (storage (run w txs)) = userRoles (storage w)).
  { revert w Hno. induction txs as [|tx rest IH]; intros w Hno; simpl; [done|].
    rewrite IH; [ by apply step_without_manager | ].
    intros [user Hu]. apply Hno. exists user.
    unfold is_manager, role_of in *.
    by rewrite step_without_manager in Hu. }
  assert (Hno' : ¬ has_manager (run w txs)).
  { intros [user Hu]. apply Hno. exists user.
    unfold is_manager, role_of in *. by rewrite Hroles in Hu. }
  split_and!; [ done | done | ].
  intros env ticketId assignee user role.
  rewrite !call_fst, assignTicket_run, resolveTicket_run, closeTicket_run,
    reopenTicket_run, setUserRole_run.
  rewrite bool_decide_eq_false_2; [ | intros Hman; apply Hno'; by eexists ].
  simpl. split_and!; by apply fails_with_revert.
Qed.

Lemma no_manager_is_forever_witness :
  ¬ has_manager (run (deploy addr_M)
                     [mkTx (mkEnv addr_M 1) (SetUserRole addr_M User)])
  ∧ fails_with
      (call (setUserRole (mkEnv addr_M 3) addr_M Manager)
            (run (run (deploy addr_M)
                      [mkTx (mkEnv addr_M 1) (SetUserRole addr_M User)])
                 [mkTx (mkEnv addr_A 2) (CreateTicket "Help" "Qm" "")])).1
      Unauthorized.
Proof.
  assert (Hno : ¬ has_manager (run (deploy addr_M)
                     [mkTx (mkEnv addr_M 1) (SetUserRole addr_M User)])).
  { assert (Hs : storage (run (deploy addr_M)
                            [mkTx (mkEnv addr_M 1) (SetUserRole addr_M User)])
                 = set_role addr_M User (set_role addr_M Manager initial_storage))
      by (by vm_compute).
    intros [user Hu]. unfold is_manager in Hu. rewrite Hs in Hu.
    destruct (decide (addr_M = user)) as [<-|Hne].
    - by rewrite role_of_set_role_eq in Hu.
    - rewrite !role_of_set_role_ne, role_of_initial in Hu by done. done. }
  destruct (no_manager_is_forever _
              [mkTx (mkEnv addr_A 2) (CreateTicket "Help" "Qm" "")] Hno)
    as (_ & _ & Hfail).
  split; [ exact Hno | ].
  by destruct (Hfail (mkEnv addr_M 3) 0 0 addr_M Manager) as (_ & _ & _ & _ & H).
Defined.

(** ** Who can change a ticket, and what *)

Lemma update_ticket_twice ticketId f g s :
  update_ticket ticketId f (update_ticket ticketId g s)
  = set_ticket ticketId (f (g (ticket_at s ticketId))) s.
Proof.
  unfold update_ticket at 1. rewrite ticket_at_update_eq.
  unfold update_ticket, set_ticket; simpl. by rewrite insert_insert_eq.
Qed.

Lemma set_ticket_over_update ticketId f x s :
  set_ticket ticketId x (update_ticket ticketId f s) = set_ticket ticketId x s.
Proof. unfold update_ticket, set_ticket; simpl. by rewrite insert_insert_eq. Qed.

(** X13. The five functions that modify a ticket write one record and
    nothing else.  When [updateStatus], [resolveTicket] or [closeTicket]
    succeeds, the storage afterwards is the storage before with the ticket's
    record replaced by itself with the new status and [updatedAt] set to the
    block timestamp; [assignTicket] sets in addition the assignee,
    [reopenTicket] resets it to [address(0)].  The other tickets, the role
    table, the comments and both counters are as before, and so are the
    ticket's id, creator, title, description, attachment and [createdAt]. *)
Theorem ticket_mutations_write_one_record env ticketId status assignee w w' :
  let x := ticket_at (storage w) ticketId in
  let written a st :=
    set_ticket ticketId
      (Ticket.mk (Ticket.id x) (Ticket.creator x) a (Ticket.title x)
                 (Ticket.description x) (Ticket.attachmentHash x) st
                 (Ticket.createdAt x) (block_timestamp env))
      (storage w) in
  (call (updateStatus env ticketId status) w = (Ok tt, w') →
     storage w' = written (Ticket.assignedTo x) status)
  ∧ (call (resolveTicket env ticketId) w = (Ok tt, w') →
     storage w' = written (Ticket.assignedTo x) Resolved)
  ∧ (call (closeTicket env ticketId) w = (Ok tt, w') →
     storage w' = written (Ticket.assignedTo x) Closed)
  ∧ (call (assignTicket env ticketId assignee) w = (Ok tt, w') →
     storage w' = written assignee InProgress)
  ∧ (call (reopenTicket env ticketId) w = (Ok tt, w') →
     storage w' = written address0 Open).
Proof.
  intros x written. unfold call.
  rewrite updateStatus_run, resolveTicket_run, closeTicket_run,
    assignTicket_run, reopenTicket_run.
  split_and!; intros Hcall;
    repeat (first [ case_bool_decide | case_match ]; simplify_eq); simpl;
    unfold status_updated, assigned, reopened;
    rewrite update_ticket_twice, ?ticket_at_update_eq, ?set_ticket_over_update;
    reflexivity.
Qed.

Lemma ticket_mutations_write_one_record_witness :
  storage (call (assignTicket (mkEnv addr_M 102) 1 addr_M2) (scenario_at 2)).2
  = set_ticket 1
      (Ticket.mk 1 addr_A addr_M2 "Printer jam" "QmDescription" "" InProgress
                 100 102)
      (storage (scenario_at 2)).
Proof.
  assert (Hcall : call (assignTicket (mkEnv addr_M 102) 1 addr_M2) (scenario_at 2)
                  = (Ok tt, (call (assignTicket (mkEnv addr_M 102) 1 addr_M2)
                                  (scenario_at 2)).2)) by (by vm_compute).
  destruct (ticket_mutations_write_one_record (mkEnv addr_M 102) 1 Open addr_M2
              (scenario_at 2)
              (call (assignTicket (mkEnv addr_M 102) 1 addr_M2) (scenario_at 2)).2)
    as (_ & _ & _ & Hassign & _).
  rewrite (Hassign Hcall). by vm_compute.
Defined.

(** What one call does to one existing ticket: nothing, or a write of its
    status, assignee and [updatedAt] by a call that names the ticket and
    passed the guard of its function. *)
Lemma step_ticket_at w tx ticketId :
  tickets_wellformed w →
  ticket_exists w ticketId →
  ticket_at (storage (step w tx).2) ticketId = ticket_at (storage w) ticketId
  ∨ ((∃ a st,
        ticket_at (storage (step w tx).2) ticketId
        = Ticket.mk (Ticket.id (ticket_at (storage w) ticketId))
                    (Ticket.creator (ticket_at (storage w) ticketId)) a
                    (Ticket.title (ticket_at (storage w) ticketId))
                    (Ticket.description (ticket_at (storage w) ticketId))
                    (Ticket.attachmentHash (ticket_at (storage w) ticketId)) st
                    (Ticket.createdAt (ticket_at (storage w) ticketId))
                    (block_timestamp (tx_env tx)))
     ∧ ((∃ status,
           tx_call tx = UpdateStatus ticketId status
           ∧ (Ticket.creator (ticket_at (storage w) ticketId)
                = msg_sender (tx_env tx)
              ∨ Ticket.assignedTo (ticket_at (storage w) ticketId)
                = msg_sender (tx_env tx)
              ∨ is_manager w (msg_sender (tx_env tx))))
        ∨ (is_manager w (msg_sender (tx_env tx))
           ∧ ((∃ assignee, tx_call tx = AssignTicket ticketId assignee)
              ∨ tx_call tx = ResolveTicket ticketId
              ∨ tx_call tx = CloseTicket ticketId
              ∨ tx_call tx = ReopenTicket ticketId)))).
Proof.
  intros Hwf Hex. destruct tx as [env c].
  destruct c as [title description attachmentHash|t status|t assignee|t|t|t
                |t content|t|user role|t|];
    unfold step, call, dispatch, mbind, Exec_bind; simpl;
    rewrite ?createTicket_run, ?updateStatus_run, ?assignTicket_run,
      ?resolveTicket_run, ?closeTicket_run, ?reopenTicket_run, ?addComment_run,
      ?getTicketComments_run, ?setUserRole_run, ?getTicket_run,
      ?getAllTickets_run, ?bool_decide_or3;
    repeat (first [ case_bool_decide | case_decide | case_match ];
            simplify_eq; simpl);
    try (by left).
  - (* createTicket *)
    left. apply (tickets_wellformed_exists _ _ Hwf) in Hex.
    unfold created, ticket_at; simpl. by rewrite lookup_insert_ne by lia.
  - (* updateStatus *)
    unfold status_updated. destruct (decide (t = ticketId)) as [->|Hne].
    + right. rewrite !ticket_at_update_eq. split; [ by eexists _, _ | ].
      left. by eexists.
    + left. by rewrite !ticket_at_update_ne.
  - (* assignTicket *)
    unfold assigned. destruct (decide (t = ticketId)) as [->|Hne].
    + right. rewrite !ticket_at_update_eq. split; [ by eexists _, _ | ].
      right. split; [done|]. left. by eexists.
    + left. by rewrite !ticket_at_update_ne.
  - (* resolveTicket *)
    unfold status_updated. destruct (decide (t = ticketId)) as [->|Hne].
    + right. rewrite !ticket_at_update_eq. split; [ by eexists _, _ | ].
      right. split; [done|]. auto.
    + left. by rewrite !ticket_at_update_ne.
  - (* closeTicket *)
    unfold status_updated. destruct (decide (t = ticketId)) as [->|Hne].
    + right. rewrite !ticket_at_update_eq. split; [ by eexists _, _ | ].
      right. split; [done|]. auto.
    + left. by rewrite !ticket_at_update_ne.
  - (* reopenTicket, from Closed *)
    unfold reopened. destruct (decide (t = ticketId)) as [->|Hne].
    + right. rewrite !ticket_at_update_eq. split; [ by eexists _, _ | ].
      right. split; [done|]. auto.
    + left. by rewrite !ticket_at_update_ne.
  - (* reopenTicket, from Resolved *)
    unfold reopened. destruct (decide (t = ticketId)) as [->|Hne].
    + right. rewrite !ticket_at_update_eq. split; [ by eexists _, _ | ].
      right. split; [done|]. auto.
    + left. by rewrite !ticket_at_update_ne.
Qed.

(** X14. Per-ticket access control: in a state reached from initialization,
    if a call changes the record of an existing ticket in any way, then the
    call is [updateStatus], [assignTicket], [resolveTicket], [closeTicket]
    or [reopenTicket] on that very ticket, and the caller is a Manager or,
    for [updateStatus] only, the ticket's creator or current assignee.  In
    particular [createTicket] never overwrites a ticket, and nobody else can
    touch it. *)
Theorem ticket_changes_need_authority creator txs tx ticketId :
  ticket_exists (run (deploy creator) txs) ticketId →
  ticket_at (storage (step (run (deploy creator) txs) tx).2) ticketId
  ≠ ticket_at (storage (run (deploy creator) txs)) ticketId →
  (∃ status,
     tx_call tx = UpdateStatus ticketId status
     ∧ (Ticket.creator (ticket_at (storage (run (deploy creator) txs)) ticketId)
          = msg_sender (tx_env tx)
        ∨ Ticket.assignedTo (ticket_at (storage (run (deploy creator) txs)) ticketId)
          = msg_sender (tx_env tx)
        ∨ is_manager (run (deploy creator) txs) (msg_sender (tx_env tx))))
  ∨ (is_manager (run (deploy creator) txs) (msg_sender (tx_env tx))
     ∧ ((∃ assignee, tx_call tx = AssignTicket ticketId assignee)
        ∨ tx_call tx = ResolveTicket ticketId
        ∨ tx_call tx = CloseTicket ticketId
        ∨ tx_call tx = ReopenTicket ticketId)).
Proof.
  intros Hex Hchanged.
  destruct (step_ticket_at _ tx ticketId (tickets_wellformed_reachable creator txs) Hex)
    as [Hsame|[_ Hwho]]; [ done | exact Hwho ].
Qed.

Lemma ticket_changes_need_authority_witness :
  ticket_exists (scenario_at 3) 1
  ∧ ticket_at (storage (step (scenario_at 3)
                             (mkTx (mkEnv addr_M2 103) (ResolveTicket 1))).2) 1
    ≠ ticket_at (storage (scenario_at 3)) 1
  ∧ is_manager (scenario_at 3) addr_M2.
Proof.
  assert (Hex : ticket_exists (run (deploy addr_M) (take 3 scenario)) 1)
    by (by vm_compute).
  assert (Hchanged :
    ticket_at (storage (step (run (deploy addr_M) (take 3 scenario))
                             (mkTx (mkEnv addr_M2 103) (ResolveTicket 1))).2) 1
    ≠ ticket_at (storage (run (deploy addr_M) (take 3 scenario))) 1)
    by (by vm_compute).
  destruct (ticket_changes_need_authority addr_M (take 3 scenario)
              (mkTx (mkEnv addr_M2 103) (ResolveTicket 1)) 1 Hex Hchanged)
    as [(status & Hcall & _)|[Hman _]]; [ discriminate Hcall | ].
  split_and!; [ exact Hex | exact Hchanged | exact Hman ].
Defined.

(** ** Timestamps *)

Lemma deploy_no_ticket creator ticketId : ¬ ticket_exists (deploy creator) ticketId.
Proof.
  intros Hex.
  apply (tickets_wellformed_exists _ _ (tickets_wellformed_deploy creator)) in Hex.
  rewrite nextTicketId_deploy in Hex. lia.
Qed.

(** A ticket that appears during a call was created by it, at its
    timestamp. *)
Lemma step_new_ticket w tx ticketId :
  ¬ ticket_exists w ticketId →
  ticket_exists (step w tx).2 ticketId →
  Ticket.createdAt (ticket_at (storage (step w tx).2) ticketId)
  = block_timestamp (tx_env tx)
  ∧ Ticket.updatedAt (ticket_at (storage (step w tx).2) ticketId)
    = block_timestamp (tx_env tx).
Proof.
  unfold ticket_exists. intros Hno Hex. destruct tx as [env c].
  destruct c; revert Hex; step_cases;
    unfold status_updated, assigned, reopened;
    repeat (rewrite ticket_id_update; [ | by intros [] ]); try done.
  unfold created, ticket_at; simpl.
  destruct (decide (nextTicketId (storage w) = ticketId)) as [<-|Hne].
  - by rewrite lookup_insert_eq.
  - rewrite lookup_insert_ne by done. intros Hex. by destruct Hno.
Qed.

Lemma timestamps_ordered_step now w tx :
  tickets_wellformed w →
  timestamps_ordered now w →
  now ≤ block_timestamp (tx_env tx) →
  timestamps_ordered (block_timestamp (tx_env tx)) (step w tx).2.
Proof.
  intros Hwf Hord Hnow ticketId Hex'.
  destruct (decide (ticket_exists w ticketId)) as [Hex|Hno].
  - destruct (Hord ticketId Hex) as [Hcu Hun].
    destruct (step_ticket_at w tx ticketId Hwf Hex)
      as [->|[(a & st & ->) _]]; simpl; lia.
  - destruct (step_new_ticket w tx ticketId Hno Hex') as [-> ->]. lia.
Qed.

(** X15. When block timestamps never go back along the trace, every ticket
    of the state reached has [createdAt ≤ updatedAt], and its [updatedAt] is
    at most the timestamp of the last call. *)
Theorem timestamps_stay_ordered creator txs ticketId :
  timestamps_nondecreasing 0 txs →
  ticket_exists (run (deploy creator) txs) ticketId →
  Ticket.createdAt (ticket_at (storage (run (deploy creator) txs)) ticketId)
  ≤ Ticket.updatedAt (ticket_at (storage (run (deploy creator) txs)) ticketId)
  ∧ Ticket.updatedAt (ticket_at (storage (run (deploy creator) txs)) ticketId)
    ≤ last_timestamp 0 txs.
Proof.
  intros Hmono.
  assert (∀ now w,
    tickets_wellformed w → timestamps_ordered now w →
    timestamps_nondecreasing now txs →
    timestamps_ordered (last_timestamp now txs) (run w txs)) as Hgen.
  { clear Hmono. induction txs as [|tx rest IH]; intros now w Hwf Hord Hm; simpl.
    { done. }
    destruct Hm as [Hnow Hrest].
    apply IH; [ by apply tickets_wellformed_step
              | by eapply timestamps_ordered_step
              | done ]. }
  apply (Hgen 0 (deploy creator)); [ apply tickets_wellformed_deploy | | done ].
  intros id Hex. by destruct (deploy_no_ticket creator id).
Qed.

Lemma timestamps_stay_ordered_witness :
  timestamps_nondecreasing 0 scenario
  ∧ ticket_exists (run (deploy addr_M) scenario) 1
  ∧ Ticket.createdAt (ticket_at (storage (run (deploy addr_M) scenario)) 1)
    ≤ Ticket.updatedAt (ticket_at (storage (run (deploy addr_M) scenario)) 1)
  ∧ Ticket.updatedAt (ticket_at (storage (run (deploy addr_M) scenario)) 1) ≤ 105.
Proof.
  assert (Hmono : timestamps_nondecreasing 0 scenario).
  { simpl. split_and!; try done; by vm_compute. }
  assert (Hex : ticket_exists (run (deploy addr_M) scenario) 1) by (by vm_compute).
  destruct (timestamps_stay_ordered addr_M scenario 1 Hmono Hex) as [Hcu Hul].
  split_and!; [ exact Hmono | exact Hex | exact Hcu | exact Hul ].
Defined.

(** ** Closing, reopening, and the creator's way around *)

(** X16. After a Manager has closed or resolved an existing ticket, a
    Manager's [reopenTicket] succeeds, and the ticket is then what it was
    before the two calls except that its status is [Open], its assignee is
    [address(0)] (an assignment made before is lost) and its [updatedAt] is
    the timestamp of the reopening. *)
Theorem reopen_after_close_or_resolve env1 env2 ticketId w :
  ticket_exists w ticketId →
  is_manager w (msg_sender env1) →
  is_manager w (msg_sender env2) →
  let x := ticket_at (storage w) ticketId in
  let y := Ticket.mk (Ticket.id x) (Ticket.creator x) address0 (Ticket.title x)
                     (Ticket.description x) (Ticket.attachmentHash x) Open
                     (Ticket.createdAt x) (block_timestamp env2) in
  (∃ w1 w2, call (closeTicket env1 ticketId) w = (Ok tt, w1)
            ∧ call (reopenTicket env2 ticketId) w1 = (Ok tt, w2)
            ∧ ticket_at (storage w2) ticketId = y)
  ∧ (∃ w1 w2, call (resolveTicket env1 ticketId) w = (Ok tt, w1)
              ∧ call (reopenTicket env2 ticketId) w1 = (Ok tt, w2)
              ∧ ticket_at (storage w2) ticketId = y).
Proof.
  intros Hex Hm1 Hm2 x y.
  assert (Hstep : ∀ st, st = Closed ∨ st = Resolved →
    ∃ w2, call (reopenTicket env2 ticketId)
               (mkWorld (status_updated env1 ticketId st (storage w))
                        (logs w ++ [StatusUpdated ticketId st (msg_sender env1)]))
          = (Ok tt, w2)
          ∧ ticket_at (storage w2) ticketId = y).
  { assert (Hex1 : ∀ st,
      ticket_exists
        (mkWorld (status_updated env1 ticketId st (storage w))
                 (logs w ++ [StatusUpdated ticketId st (msg_sender env1)]))
        ticketId).
    { intros st. unfold ticket_exists, status_updated; simpl.
      by rewrite !ticket_at_update_eq. }
    intros st [-> | ->]; (eexists; split;
      [ apply call_ok; rewrite reopenTicket_run;
        rewrite (bool_decide_eq_true_2 (is_manager _ _)) by exact Hm2;
        rewrite (bool_decide_eq_true_2 (ticket_exists _ _)) by apply Hex1;
        simpl; unfold status_updated; rewrite !ticket_at_update_eq; simpl;
        repeat case_bool_decide; done
      | simpl; unfold reopened, status_updated;
        by rewrite !ticket_at_update_eq ]). }
  split.
  - destruct (Hstep Closed) as (w2 & Hre & Hy); [ by left | ].
    eexists _, w2. split; [ | done ].
    apply call_ok. rewrite closeTicket_run. by do 2 guard_true.
  - destruct (Hstep Resolved) as (w2 & Hre & Hy); [ by right | ].
    eexists _, w2. split; [ | done ].
    apply call_ok. rewrite resolveTicket_run. by do 2 guard_true.
Qed.

Lemma reopen_after_close_or_resolve_witness :
  ticket_exists (scenario_at 3) 1
  ∧ Ticket.assignedTo (ticket_at (storage (scenario_at 3)) 1) = addr_M2
  ∧ ∃ w1 w2, call (closeTicket (mkEnv addr_M 110) 1) (scenario_at 3) = (Ok tt, w1)
             ∧ call (reopenTicket (mkEnv addr_M2 111) 1) w1 = (Ok tt, w2)
             ∧ Ticket.assignedTo (ticket_at (storage w2) 1) = address0
             ∧ Ticket.status (ticket_at (storage w2) 1) = Open.
Proof.
  assert (Hex : ticket_exists (scenario_at 3) 1) by (by vm_compute).
  assert (Hm1 : is_manager (scenario_at 3) addr_M) by (by vm_compute).
  assert (Hm2 : is_manager (scenario_at 3) addr_M2) by (by vm_compute).
  destruct (reopen_after_close_or_resolve (mkEnv addr_M 110) (mkEnv addr_M2 111) 1
              (scenario_at 3) Hex Hm1 Hm2) as [(w1 & w2 & Hc & Hr & Hy) _].
  split_and!; [ exact Hex | by vm_compute | ].
  exists w1, w2. rewrite Hy. by split_and!.
Defined.

(** X17. The creator of a ticket needs no Manager to reopen it: for an
    existing ticket whose creator is the caller and is no Manager,
    [reopenTicket] fails with [Unauthorized], but [updateStatus(id, Open)]
    succeeds from every status, [Closed] and [Resolved] included, and sets
    the status to [Open]; unlike [reopenTicket] it keeps the assignee. *)
Theorem creator_reopens_through_updateStatus env ticketId w :
  ticket_exists w ticketId →
  Ticket.creator (ticket_at (storage w) ticketId) = msg_sender env →
  ¬ is_manager w (msg_sender env) →
  fails_with (call (reopenTicket env ticketId) w).1 Unauthorized
  ∧ ∃ w', call (updateStatus env ticketId Open) w = (Ok tt, w')
      ∧ Ticket.status (ticket_at (storage w') ticketId) = Open
      ∧ Ticket.assignedTo (ticket_at (storage w') ticketId)
        = Ticket.assignedTo (ticket_at (storage w) ticketId).
Proof.
  intros Hex Hcreator Hno. split.
  - rewrite call_fst, reopenTicket_run. guard_false. by apply fails_with_revert.
  - eexists. split.
    + apply call_ok. rewrite updateStatus_run. guard_true.
      rewrite bool_decide_or3. rewrite bool_decide_eq_true_2; [ done | by left ].
    + simpl. unfold status_updated. by rewrite !ticket_at_update_eq.
Qed.

Lemma creator_reopens_through_updateStatus_witness :
  Ticket.status (ticket_at (storage closed_world) 1) = Closed
  ∧ fails_with (call (reopenTicket (mkEnv addr_A 120) 1) closed_world).1
               Unauthorized
  ∧ ∃ w', call (updateStatus (mkEnv addr_A 120) 1 Open) closed_world = (Ok tt, w')
      ∧ Ticket.status (ticket_at (storage w') 1) = Open.
Proof.
  assert (Hex : ticket_exists closed_world 1) by (by vm_compute).
  assert (Hcr : Ticket.creator (ticket_at (storage closed_world) 1)
                = msg_sender (mkEnv addr_A 120)) by (by vm_compute).
  assert (Hno : ¬ is_manager closed_world (msg_sender (mkEnv addr_A 120)))
    by (by vm_compute).
  destruct (creator_reopens_through_updateStatus (mkEnv addr_A 120) 1 closed_world
              Hex Hcr Hno) as (Hfail & w' & Hcall & Hst & _).
  split_and!; [ by vm_compute | exact Hfail | by exists w' ].
Defined.

(** ** Creating and reading back *)

(** X22. [createTicket] refuses nobody and nothing: in a state reached from
    initialization by fewer than [2^256 - 2] calls it succeeds for every
    caller, Manager or not, and for all strings, empty ones included, and
    [getTicket] of the returned id then returns the ticket as created. *)
Theorem createTicket_then_getTicket creator txs env title description
    attachmentHash :
  N.of_nat (length txs) + 1 < UINT256_MAX →
  ∃ ticketId w',
    call (createTicket env title description attachmentHash)
         (run (deploy creator) txs) = (Ok ticketId, w')
    ∧ call (getTicket ticketId) w'
      = (Ok (Ticket.mk ticketId (msg_sender env) address0 title description
                       attachmentHash Open (block_timestamp env)
                       (block_timestamp env)), w').
Proof.
  intros Hroom.
  pose proof (nextTicketId_bound creator txs) as Hbound.
  destruct (tickets_wellformed_reachable creator txs) as [Hpos _].
  eexists _, _. split.
  - apply call_ok. rewrite createTicket_run.
    rewrite decide_True by lia. reflexivity.
  - apply call_ok. rewrite getTicket_run.
    assert (Hat : ticket_at
                    (created env title description attachmentHash
                       (storage (run (deploy creator) txs)))
                    (nextTicketId (storage (run (deploy creator) txs)))
                  = Ticket.mk (nextTicketId (storage (run (deploy creator) txs)))
                      (msg_sender env) address0 title description attachmentHash
                      Open (block_timestamp env) (block_timestamp env)).
    { unfold created, ticket_at; simpl. by rewrite lookup_insert_eq. }
    rewrite bool_decide_eq_true_2.
    + simpl. by rewrite Hat.
    + unfold ticket_exists; simpl. rewrite Hat; simpl. lia.
Qed.

Lemma createTicket_then_getTicket_witness :
  ∃ w', call (createTicket (mkEnv addr_A 130) "" "" "") (run (deploy addr_M) scenario)
        = (Ok 2, w')
    ∧ call (getTicket 2) w'
      = (Ok (Ticket.mk 2 addr_A address0 "" "" "" Open 130 130), w').
Proof.
  destruct (createTicket_then_getTicket addr_M scenario (mkEnv addr_A 130) "" "" "")
    as (ticketId & w' & Hcreate & Hget); [ by vm_compute | ].
  assert (Hid : ticketId = 2).
  { assert (Hfst : (call (createTicket (mkEnv addr_A 130) "" "" "")
                         (run (deploy addr_M) scenario)).1 = Ok 2)
      by (by vm_compute).
    rewrite Hcreate in Hfst. by injection Hfst. }
  subst ticketId. by exists w'.
Defined.

(** ** Assignees *)

Lemma step_assignee w tx ticketId :
  tickets_wellformed w →
  ticket_exists w ticketId →
  Ticket.assignedTo (ticket_at (storage (step w tx).2) ticketId)
  = Ticket.assignedTo (ticket_at (storage w) ticketId)
  ∨ Ticket.assignedTo (ticket_at (storage (step w tx).2) ticketId) = address0
  ∨ is_manager w (Ticket.assignedTo (ticket_at (storage (step w tx).2) ticketId)).
Proof.
  intros Hwf Hex. destruct tx as [env c].
  destruct c as [title description attachmentHash|t status|t assignee|t|t|t
                |t content|t|user role|t|];
    unfold step, call, dispatch, mbind, Exec_bind; simpl;
    rewrite ?createTicket_run, ?updateStatus_run, ?assignTicket_run,
      ?resolveTicket_run, ?closeTicket_run, ?reopenTicket_run, ?addComment_run,
      ?getTicketComments_run, ?setUserRole_run, ?getTicket_run,
      ?getAllTickets_run, ?bool_decide_or3;
    repeat (first [ case_bool_decide | case_decide | case_match ];
            simplify_eq; simpl);
    try (by left);
    unfold created, status_updated, assigned, reopened;
    try (destruct (decide (t = ticketId)) as [->|Hne];
         [ rewrite !ticket_at_update_eq; simpl; auto
         | left; by rewrite !ticket_at_update_ne ]).
  left. apply (tickets_wellformed_exists _ _ Hwf) in Hex.
  unfold ticket_at; simpl. by rewrite lookup_insert_ne by lia.
Qed.

Lemma step_new_assignee w tx ticketId :
  ¬ ticket_exists w ticketId →
  ticket_exists (step w tx).2 ticketId →
  Ticket.assignedTo (ticket_at (storage (step w tx).2) ticketId) = address0.
Proof.
  unfold ticket_exists. intros Hno Hex. destruct tx as [env c].
  destruct c; revert Hex; step_cases;
    unfold status_updated, assigned, reopened;
    repeat (rewrite ticket_id_update; [ | by intros [] ]); try done.
  unfold created, ticket_at; simpl.
  destruct (decide (nextTicketId (storage w) = ticketId)) as [<-|Hne].
  - by rewrite lookup_insert_eq.
  - rewrite lookup_insert_ne by done. intros Hex. by destruct Hno.
Qed.

Lemma step_promotes w tx user :
  (∀ u, tx_call tx ≠ SetUserRole u User) →
  is_manager w user → is_manager (step w tx).2 user.
Proof.
  intros Hsafe. unfold is_manager, role_of. rewrite step_userRoles.
  destruct (tx_call tx) as [| | | | | | | |u role| |]; try done.
  case_bool_decide; [ | done ].
  destruct role; [ by destruct (Hsafe u) | ].
  intros Hman. destruct (decide (u = user)) as [->|Hne].
  - by rewrite lookup_insert_eq.
  - by rewrite lookup_insert_ne.
Qed.

(** X23. As long as nobody is demoted, assignees are Managers: in a state
    reached from initialization by calls none of which is a
    [setUserRole(_, User)], every existing ticket is either unassigned
    ([assignedTo] is [address(0)]) or assigned to an identity that holds
    the Manager role. *)
Theorem assignees_stay_managers creator txs ticketId :
  never_demotes txs →
  ticket_exists (run (deploy creator) txs) ticketId →
  Ticket.assignedTo (ticket_at (storage (run (deploy creator) txs)) ticketId)
  = address0
  ∨ is_manager (run (deploy creator) txs)
      (Ticket.assignedTo (ticket_at (storage (run (deploy creator) txs)) ticketId)).
Proof.
  intros Hsafe.
  assert (∀ w, tickets_wellformed w → assignees_are_managers w →
               assignees_are_managers (run w txs)) as Hgen.
  { induction Hsafe as [|tx rest Htx _ IH]; intros w Hwf Hinv; simpl; [done|].
    apply IH; [ by apply tickets_wellformed_step | ].
    intros id Hex'.
    destruct (decide (ticket_exists w id)) as [Hex|Hno].
    - destruct (step_assignee w tx id Hwf Hex) as [->|[->|Hman]].
      + destruct (Hinv id Hex) as [|Hman]; [ by left | right ].
        by apply step_promotes.
      + by left.
      + right. by apply step_promotes.
    - left. by apply step_new_assignee. }
  apply Hgen; [ apply tickets_wellformed_deploy | ].
  intros id Hex. by destruct (deploy_no_ticket creator id).
Qed.

Lemma assignees_stay_managers_witness :
  never_demotes (take 3 scenario)
  ∧ ticket_exists (run (deploy addr_M) (take 3 scenario)) 1
  ∧ is_manager (run (deploy addr_M) (take 3 scenario)) addr_M2
  ∧ Ticket.assignedTo (ticket_at (storage (run (deploy addr_M) (take 3 scenario))) 1)
    = addr_M2.
Proof.
  assert (Hsafe : never_demotes (take 3 scenario)).
  { repeat constructor; by intros user. }
  assert (Hex : ticket_exists (run (deploy addr_M) (take 3 scenario)) 1)
    by (by vm_compute).
  assert (Hass : Ticket.assignedTo
                   (ticket_at (storage (run (deploy addr_M) (take 3 scenario))) 1)
                 = addr_M2) by (by vm_compute).
  destruct (assignees_stay_managers addr_M (take 3 scenario) 1 Hsafe Hex)
    as [Hzero|Hman].
  - rewrite Hass in Hzero. discriminate Hzero.
  - rewrite Hass in Hman. split_and!; [ exact Hsafe | exact Hex | exact Hman | exact Hass ].
Defined.

(** * Properties of the front end's helpers *)

(** ** Gateway URLs *)

Lemma PINATA_GATEWAY_nonempty env : PINATA_GATEWAY env ≠ [].
Proof. by destruct env as [[|c rest]|]. Qed.

(** X18. [getIPFSUrl] returns the empty string exactly for the empty cid;
    for any other cid it returns the gateway followed by the cid, where the
    gateway is never empty (an unset or empty [VITE_PINATA_GATEWAY] falls
    back to the default), so that the url differs from the cid and dropping
    the gateway's length from it gives the cid back; and two cids with the
    same url are equal. *)
Theorem getIPFSUrl_roundtrip env cid cid' :
  (getIPFSUrl env cid = [] ↔ cid = [])
  ∧ (cid ≠ [] →
     getIPFSUrl env cid = PINATA_GATEWAY env ++ cid
     ∧ (0 < length (PINATA_GATEWAY env))%nat
     ∧ getIPFSUrl env cid ≠ cid
     ∧ drop (length (PINATA_GATEWAY env)) (getIPFSUrl env cid) = cid)
  ∧ (getIPFSUrl env cid = getIPFSUrl env cid' → cid = cid').
Proof.
  pose proof (PINATA_GATEWAY_nonempty env) as Hgw.
  assert (Hlen : (0 < length (PINATA_GATEWAY env))%nat).
  { destruct (PINATA_GATEWAY env); [done | simpl; lia]. }
  assert (Hurl : ∀ c, c ≠ [] → getIPFSUrl env c = PINATA_GATEWAY env ++ c).
  { by intros [|]. }
  assert (Hnil : ∀ c, getIPFSUrl env c = [] ↔ c = []).
  { intros c. split; [ | by intros -> ].
    destruct c as [|x c]; [done|]. rewrite Hurl by done.
    intros [? _]%app_eq_nil. done. }
  split_and!; [ done | | ].
  - intros Hne. rewrite Hurl by done. split_and!; [ done | done | | ].
    + intros Heq. apply (f_equal length) in Heq. rewrite length_app in Heq. lia.
    + by rewrite drop_app_length.
  - intros Heq.
    destruct (decide (cid = [])) as [->|Hne].
    { symmetry. apply Hnil. by rewrite <- Heq. }
    destruct (decide (cid' = [])) as [->|Hne'].
    { apply Hnil. by rewrite Heq. }
    rewrite !Hurl in Heq by done. by apply app_inv_head in Heq.
Qed.

(** ** Mock content ids *)

Lemma hex_digit_alnum d : d < 16 → is_alnum (hex_digit d) = true.
Proof.
  intros Hd. unfold hex_digit, is_alnum.
  destruct (d <? 10) eqn:Hlt.
  - apply N.ltb_lt in Hlt.
    rewrite (proj2 (N.leb_le 48 (48 + d))), (proj2 (N.leb_le (48 + d) 57)) by lia.
    by rewrite !orb_true_r.
  - apply N.ltb_ge in Hlt.
    rewrite (proj2 (N.leb_le 97 (87 + d))), (proj2 (N.leb_le (87 + d) 122)) by lia.
    simpl. by rewrite orb_true_r.
Qed.

Lemma hex_digit_inj d1 d2 :
  d1 < 16 → d2 < 16 → hex_digit d1 = hex_digit d2 → d1 = d2.
Proof.
  unfold hex_digit. intros H1 H2.
  destruct (d1 <? 10) eqn:E1, (d2 <? 10) eqn:E2;
    rewrite ?N.ltb_lt, ?N.ltb_ge in *; lia.
Qed.

(** The two hexadecimal digits of a byte. *)
Lemma hex_pair b :
  b < 256 →
  padStart2 (toString16 b) = [hex_digit (b / 16); hex_digit (b mod 16)].
Proof.
  intros Hb. unfold padStart2, toString16.
  destruct (b <? 16) eqn:Hlt; [ | done ].
  apply N.ltb_lt in Hlt. simpl.
  by rewrite N.div_small, N.mod_small.
Qed.

Lemma hashHex_cons b rest :
  b < 256 →
  hashHex (b :: rest) = hex_digit (b / 16) :: hex_digit (b mod 16) :: hashHex rest.
Proof. intros Hb. unfold hashHex; simpl. by rewrite hex_pair. Qed.

Lemma hashHex_length hashArray :
  Forall (λ b, b < 256) hashArray →
  length (hashHex hashArray) = (2 * length hashArray)%nat.
Proof.
  induction 1 as [|b rest Hb _ IH]; [done|].
  rewrite hashHex_cons by done. simpl. rewrite IH. lia.
Qed.

Lemma hashHex_alnum hashArray :
  Forall (λ b, b < 256) hashArray →
  forallb is_alnum (hashHex hashArray) = true.
Proof.
  induction 1 as [|b rest Hb _ IH]; [done|].
  rewrite hashHex_cons by done. simpl.
  rewrite !hex_digit_alnum, IH; [ done | | ].
  - apply N.mod_lt. lia.
  - apply N.Div0.div_lt_upper_bound. lia.
Qed.

Lemma hashHex_take (n : nat) hashArray :
  Forall (λ b, b < 256) hashArray →
  take (2 * n) (hashHex hashArray) = hashHex (take n hashArray).
Proof.
  intros Hall. revert n. induction Hall as [|b rest Hb Hrest IH]; intros n.
  { change (hashHex []) with (@nil N). by rewrite !take_nil. }
  destruct n as [|n]; [done|].
  replace (2 * S n)%nat with (S (S (2 * n))) by lia.
  rewrite firstn_cons, (hashHex_cons b (take n rest)) by done.
  rewrite hashHex_cons by done. simpl. do 2 f_equal. apply IH.
Qed.

Lemma hashHex_inj l1 l2 :
  Forall (λ b, b < 256) l1 → Forall (λ b, b < 256) l2 →
  hashHex l1 = hashHex l2 → l1 = l2.
Proof.
  intros H1. revert l2. induction H1 as [|b1 r1 Hb1 _ IH]; intros l2 H2 Heq.
  - destruct H2 as [|b2 r2 Hb2 _]; [done|].
    by rewrite hashHex_cons in Heq by done.
  - destruct H2 as [|b2 r2 Hb2 Hr2].
    { by rewrite hashHex_cons in Heq by done. }
    rewrite !hashHex_cons in Heq by done.
    injection Heq as Hhi Hlo Hrest.
    apply hex_digit_inj in Hhi, Hlo;
      try (apply N.mod_lt; lia); try (apply N.Div0.div_lt_upper_bound; lia).
    f_equal; [ | by apply IH ].
    rewrite (N.div_mod b1 16), (N.div_mod b2 16) by lia. by rewrite Hhi, Hlo.
Qed.

(** X19. Every content id that the demo [uploadToIPFS] builds from a 32-byte
    SHA-256 digest has exactly 46 characters, starts with [Qm], and passes
    [isIPFSHash]. *)
Theorem mockCID_is_IPFS_hash hashArray :
  length hashArray = 32%nat →
  Forall (λ b, b < 256) hashArray →
  length (mockCID hashArray) = 46%nat
  ∧ take 2 (mockCID hashArray) = js "Qm"
  ∧ isIPFSHash (mockCID hashArray) = true.
Proof.
  intros Hlen Hall.
  assert (Hl : length (mockCID hashArray) = 46%nat).
  { unfold mockCID. rewrite length_app, length_take, hashHex_length by done.
    rewrite Hlen. reflexivity. }
  split_and!; [ done | done | ].
  unfold isIPFSHash. rewrite Hl. rewrite andb_true_r.
  unfold mockCID. rewrite forallb_app. apply andb_true_iff. split; [done|].
  change 44%nat with (2 * 22)%nat. rewrite hashHex_take by done.
  apply hashHex_alnum. by apply Forall_take.
Qed.

Lemma mockCID_is_IPFS_hash_witness :
  length (mockCID (replicate 32 171)) = 46%nat
  ∧ isIPFSHash (mockCID (replicate 32 171)) = true.
Proof.
  destruct (mockCID_is_IPFS_hash (replicate 32 171)) as (Hl & _ & Hok).
  - by vm_compute.
  - apply Forall_replicate. by vm_compute.
  - split; [ exact Hl | exact Hok ].
Defined.

(** X20. The mock content id keeps the first 22 bytes of the digest and
    nothing else: two digests get the same id exactly when they agree on
    their first 22 bytes, whatever the last 10 bytes are. *)
Theorem mockCID_keeps_22_bytes h1 h2 :
  Forall (λ b, b < 256) h1 →
  Forall (λ b, b < 256) h2 →
  mockCID h1 = mockCID h2 ↔ take 22 h1 = take 22 h2.
Proof.
  intros H1 H2. unfold mockCID.
  change 44%nat with (2 * 22)%nat. rewrite !hashHex_take by done.
  split.
  - intros Heq%app_inv_head. apply hashHex_inj in Heq; [ done | | ];
      by apply Forall_take.
  - by intros ->.
Qed.

Lemma mockCID_keeps_22_bytes_witness :
  mockCID (replicate 22 7 ++ replicate 10 0)
  = mockCID (replicate 22 7 ++ replicate 10 255).
Proof.
  apply (mockCID_keeps_22_bytes (replicate 22 7 ++ replicate 10 0)
                                (replicate 22 7 ++ replicate 10 255)).
  - apply Forall_app. split; apply Forall_replicate; by vm_compute.
  - apply Forall_app. split; apply Forall_replicate; by vm_compute.
  - by vm_compute.
Defined.

(** ** The ticket form *)

Lemma trimStart_nil s :
  trimStart s = [] ↔ Forall (λ c, is_js_whitespace c = true) s.
Proof.
  induction s as [|c s IH]; simpl; [ done | ].
  destruct (is_js_whitespace c) eqn:Hc.
  - rewrite IH. split; [ by constructor | by inversion 1 ].
  - split; [ done | ]. inversion 1; congruence.
Qed.

Lemma trimStart_whitespace s :
  Forall (λ c, is_js_whitespace c = true) (trimStart s) → trimStart s = [].
Proof.
  induction s as [|c s IH]; simpl; [ done | ].
  destruct (is_js_whitespace c) eqn:Hc; [ done | ].
  inversion 1; congruence.
Qed.

(** [!s.trim()] holds exactly for the strings made of whitespace only. *)
Lemma falsy_trim s : falsy (trim s) = false ↔ has_content s.
Proof.
  assert (Hnil : trim s = [] ↔ Forall (λ c, is_js_whitespace c = true) s).
  { unfold trim, trimEnd. rewrite <- trimStart_nil. split.
    - intros H. apply (f_equal reverse) in H. rewrite reverse_involutive in H.
      change (reverse []) with (@nil N) in H.
      apply trimStart_nil in H. rewrite Forall_reverse in H.
      by apply trimStart_whitespace.
    - intros ->. done. }
  unfold has_content. split.
  - intros Hf. destruct (trim s) eqn:Ht; [ done | ].
    assert (Hnot : ¬ Forall (λ c, is_js_whitespace c = true) s).
    { intros Hall. apply Hnil in Hall. congruence. }
    apply not_Forall_Exists in Hnot; [ | intros c; apply _ ].
    eapply Exists_impl; [ exact Hnot | ].
    intros c Hc. simpl in Hc. by destruct (is_js_whitespace c).
  - intros Hex. destruct (trim s) eqn:Ht; [ | done ].
    assert (Hall : Forall (λ c, is_js_whitespace c = true) s) by (by apply Hnil).
    apply Exists_exists in Hex as (c & Hin & Hc).
    rewrite Forall_forall in Hall. specialize (Hall c Hin). congruence.
Qed.

Lemma falsy_false s : falsy s = false ↔ s ≠ [].
Proof. by destruct s. Qed.

Lemma no_keys_mk a b c d e f :
  FormErrors.no_keys (FormErrors.mk a b c d e f) = true
  ↔ a = None ∧ b = None ∧ c = None ∧ d = None ∧ e = None ∧ f = None.
Proof.
  destruct a, b, c, d, e, f; simpl; split; try done; intros (?&?&?&?&?&?); done.
Qed.

(** X21. [validateForm] accepts the form exactly when: the title has a
    character that is not whitespace and between 5 and 100 code units, both
    bounds included and whitespace counted; the description has a character
    that is not whitespace and at least 10 code units; an issue type and an
    equipment type are chosen; the serial number is not blank; and the
    attachment, if there is one, has at most 10 * 1024 * 1024 bytes, the
    bound included.  The remedial action is not looked at.  It accepts
    exactly when it reports no error. *)
Theorem validateForm_accepts formData :
  ((validateForm formData).2 = true ↔
     has_content (FormData.title formData)
     ∧ (5 ≤ length (FormData.title formData) ≤ 100)%nat
     ∧ has_content (FormData.description formData)
     ∧ (10 ≤ length (FormData.description formData))%nat
     ∧ FormData.issueType formData ≠ []
     ∧ FormData.equipmentType formData ≠ []
     ∧ has_content (FormData.serialNumber formData)
     ∧ (∀ size, FormData.attachment formData = Some size → size ≤ 10485760))
  ∧ ((validateForm formData).2 = true ↔
     (validateForm formData).1 = FormErrors.mk None None None None None None).
Proof.
  destruct formData as [t d i e sn r a]. unfold validateForm. simpl.
  assert (Htitle :
    (if falsy (trim t) then Some "Title is required"
     else if (length t <? 5)%nat then Some "Title must be at least 5 characters"
     else if (100 <? length t)%nat
          then Some "Title must be less than 100 characters"
     else None) = None
    ↔ has_content t ∧ (5 ≤ length t ≤ 100)%nat).
  { rewrite <- falsy_trim. destruct (falsy (trim t)); [ by split; [|intros []] | ].
    destruct (length t <? 5)%nat eqn:E1;
      [ apply Nat.ltb_lt in E1; split; [ done | lia ] | ].
    destruct (100 <? length t)%nat eqn:E2;
      [ apply Nat.ltb_lt in E2; split; [ done | lia ] | ].
    apply Nat.ltb_ge in E1, E2. split; [ intros _; split; [done | lia] | done ]. }
  assert (Hdesc :
    (if falsy (trim d) then Some "Description is required"
     else if (length d <? 10)%nat
          then Some "Description must be at least 10 characters"
     else None) = None
    ↔ has_content d ∧ (10 ≤ length d)%nat).
  { rewrite <- falsy_trim. destruct (falsy (trim d)); [ by split; [|intros []] | ].
    destruct (length d <? 10)%nat eqn:E1;
      [ apply Nat.ltb_lt in E1; split; [ done | lia ] | ].
    apply Nat.ltb_ge in E1. split; [ intros _; split; [done | lia] | done ]. }
  assert (Hissue :
    (if falsy i then Some "Issue type is required" else None) = None ↔ i ≠ []).
  { by destruct i. }
  assert (Hequip :
    (if falsy e then Some "Equipment type is required" else None) = None ↔ e ≠ []).
  { by destruct e. }
  assert (Hserial :
    (if falsy (trim sn) then Some "Serial number required" else None) = None
    ↔ has_content sn).
  { rewrite <- falsy_trim. by destruct (falsy (trim sn)). }
  assert (Hattach :
    match a with
    | Some size =>
        if 10 * 1024 * 1024 <? size then Some "File must be smaller than 10MB"
        else None
    | None => None
    end = None
    ↔ ∀ size, a = Some size → size ≤ 10485760).
  { destruct a as [size|]; [ | done ].
    destruct (10 * 1024 * 1024 <? size) eqn:E.
    - apply N.ltb_lt in E. split; [ done | ].
      intros Hsize. specialize (Hsize size eq_refl). lia.
    - apply N.ltb_ge in E. split; [ | done ]. intros _ size' [= <-]. lia. }
  rewrite no_keys_mk, Htitle, Hdesc, Hissue, Hequip, Hserial, Hattach.
  split; [ tauto | ].
  rewrite <- Htitle, <- Hdesc, <- Hissue, <- Hequip, <- Hserial, <- Hattach.
  split; [ by intros (-> & -> & -> & -> & -> & ->) | ].
  intros [= -> -> -> -> -> ->]. done.
Qed.
